(** * utils.py of the spring double pendulum notebook, embedded in Rocq

    The module has four functions: [rad_to_deg], [deg_to_rad],
    [show_animation] and [make_animation] with its nested callback
    [animate].  They are translated below as executable definitions:

    - Python floats are IEEE binary64 numbers, which is exactly what the
      kernel's primitive [float] type is, so float arithmetic is not
      idealised;
    - [fps], [n_seconds] and [decay_time] are Python ints: these are the
      only values for which [range(n_frames)] inside [FuncAnimation] and
      the slice bounds inside [animate] are accepted;
    - raising is modelled by a result type with the built-in exceptions the
      code can raise;
    - matplotlib is reduced to what the code asks of it: the calls of
      [plt.xlim] and [plt.ylim] with their arguments, which raise for a
      limit that is NaN or infinite, the frame numbers [FuncAnimation]
      draws, and the artist data of every frame handed to the writer.
      What the axes show after a call (matplotlib widens a degenerate
      range) and the writer's own failures are outside the model. *)

From Stdlib Require Import Reals Lra.
From Stdlib Require Import String Ascii.
From Stdlib Require Import ZArith List Lia Bool Sorted.
From Stdlib Require Import QArith Qround.
From Stdlib Require Import Floats.PrimFloat Uint63.
From Stdlib Require Floats.SpecFloat Floats.FloatAxioms.
Import ListNotations.

Open Scope Z_scope.

(** ** Python runtime *)

Module Py.

(** Exceptions reachable from utils.py.  [LibraryError] stands for an
    exception raised inside the named matplotlib call whose class is the
    library's affair. *)
Inductive exn : Type :=
| ValueError (msg : string)
| ZeroDivisionError
| IndexError
| OverflowError
| LibraryError (raised_by : string).

Inductive result (A : Type) : Type :=
| Ok (a : A)
| Raise (e : exn).
Arguments Ok {A} a.
Arguments Raise {A} e.

Definition bind {A B : Type} (r : result A) (k : A -> result B) : result B :=
  match r with
  | Ok a => k a
  | Raise e => Raise e
  end.

(** [len(a)] as an int. *)
Definition len {A : Type} (a : list A) : Z := Z.of_nat (length a).

(** [range(n)]: empty when [n <= 0]. *)
Definition range (n : Z) : list Z := map Z.of_nat (seq 0 (Z.to_nat n)).

(** [a / b] on ints is true division; the quotient is kept exact here.
    CPython rounds it to binary64, and truncating the rounded quotient
    gives the same integer as truncating the exact one whenever
    [a < 2^53], which every array length satisfies. *)
Definition truediv (a b : Z) : result Q :=
  if b =? 0 then Raise ZeroDivisionError
  else Ok (inject_Z a / inject_Z b)%Q.

(** [int(q)] truncates toward zero. *)
Definition int (q : Q) : Z :=
  if Qle_bool 0 q then Qfloor q else Qceiling q.

(** [a[i]] on a one-dimensional array: a negative index counts from the
    end, anything outside [-len, len) raises. *)
Definition index {A : Type} (a : list A) (i : Z) : result A :=
  let j := if i <? 0 then i + len a else i in
  if j <? 0 then Raise IndexError
  else match nth_error a (Z.to_nat j) with
       | Some v => Ok v
       | None => Raise IndexError
       end.

(** Normalisation of one slice bound, as [slice.indices] does it. *)
Definition adjust (n step v : Z) : Z :=
  if v <? 0 then
    (if v + n <? 0 then (if step <? 0 then -1 else 0) else v + n)
  else
    (if n <=? v then (if step <? 0 then n - 1 else n) else v).

(** Number of indices selected between two normalised bounds. *)
Definition slice_length (start stop step : Z) : Z :=
  if step <? 0 then
    (if stop <? start then (start - stop - 1) / (- step) + 1 else 0)
  else
    (if start <? stop then (stop - start - 1) / step + 1 else 0).

(** The indices [a[start:stop:step]] reads from an array of length [n]. *)
Definition slice_indices (n start stop step : Z) : result (list Z) :=
  if step =? 0 then Raise (ValueError "slice step cannot be zero")
  else
    let s := adjust n step start in
    let e := adjust n step stop in
    Ok (map (fun j => s + j * step) (range (slice_length s e step))).

Definition gather {A : Type} (a : list A) (idx : list Z) : list A :=
  flat_map (fun j => match nth_error a (Z.to_nat j) with
                     | Some v => [v]
                     | None => []
                     end) idx.

(** [a[start:stop:step]]. *)
Definition slice {A : Type} (a : list A) (start stop step : Z)
  : result (list A) :=
  bind (slice_indices (len a) start stop step)
       (fun idx => Ok (gather a idx)).

(** Truth value of an optional float argument: [None] and [0.0] (also
    [-0.0]) are false, every other float, NaN included, is true. *)
Definition truthy (o : option float) : bool :=
  match o with
  | None => false
  | Some v => negb (v =? 0)%float
  end.

End Py.

Import Py.

Notation "x <- r ;; k" := (Py.bind r (fun x => k))
  (at level 61, r at next level, right associativity).

(** ** numpy reductions and constants *)

Module Np.

(** [np.pi], the double nearest to pi: 3.141592653589793. *)
Definition pi : float := 0x1.921fb54442d18p+1%float.

(** [np.minimum] on two scalars: a NaN wins. *)
Definition minimum (a b : float) : float :=
  if is_nan a then a
  else if is_nan b then b
  else if (b <? a)%float then b else a.

Definition maximum (a b : float) : float :=
  if is_nan a then a
  else if is_nan b then b
  else if (a <? b)%float then b else a.

(** [np.min(a)]: raises on an empty array. *)
Definition min (a : list float) : result float :=
  match a with
  | [] => Raise (ValueError "zero-size array to reduction operation minimum which has no identity")
  | x :: r => Ok (fold_left minimum r x)
  end.

Definition max (a : list float) : result float :=
  match a with
  | [] => Raise (ValueError "zero-size array to reduction operation maximum which has no identity")
  | x :: r => Ok (fold_left maximum r x)
  end.

End Np.

(** ** Angle conversions *)

(** [return x * 180 / np.pi] *)
Definition rad_to_deg (x : float) : float := (x * 180 / Np.pi)%float.

(** [return x * np.pi / 180] *)
Definition deg_to_rad (x : float) : float := (x * Np.pi / 180)%float.

(** The tolerance test [|a - b| < 1e-9]; the literal is the double nearest
    to 1e-9. *)
Definition within_tolerance (a b : float) : bool :=
  (abs (a - b) <? 0x1.12e0be826d695p-30)%float.

(** Whether converting to radians and back lands within the tolerance. *)
Definition roundtrip_within_tolerance (x : float) : bool :=
  within_tolerance (rad_to_deg (deg_to_rad x)) x.

(** An int as a float (exact below 2^53). *)
Definition float_of_Z (z : Z) : float :=
  match z with
  | Z0 => 0%float
  | Zpos _ => of_uint63 (Uint63.of_Z z)
  | Zneg p => (- of_uint63 (Uint63.of_Z (Zpos p)))%float
  end.

(** ** Real values of binary64 floats

    The tolerance of the angle round trip is a statement about real
    numbers, so the floats are given their real values, and each
    rounding of IEEE 754 arithmetic (as specified by [SpecFloat]) is
    related to the exact result. *)

(** [2^e] as a real number. *)
Definition pow2 (e : Z) : R := powerRZ 2 e.

(** The place of the real [v] between [m * u] and [(m + 1) * u], as the
    round bit [r] and the sticky bit [s] record it. *)
Definition inbetween (m : Z) (r s : bool) (u v : R) : Prop :=
  match r, s with
  | false, false => (v = IZR m * u)%R
  | false, true => (IZR m * u < v < (IZR m + / 2) * u)%R
  | true, false => (v = (IZR m + / 2) * u)%R
  | true, true => ((IZR m + / 2) * u < v < (IZR m + 1) * u)%R
  end.

(** A shift record with exponent [e] stands for the real [v]. *)
Definition represents (mrs : SpecFloat.shr_record) (e : Z) (v : R) : Prop :=
  0 <= SpecFloat.shr_m mrs /\
  inbetween (SpecFloat.shr_m mrs) (SpecFloat.shr_r mrs) (SpecFloat.shr_s mrs)
            (pow2 e) v.

(** The exponent of binary64 for a number of [z] significant bits. *)
Definition fexp64 (z : Z) : Z := Z.max (z - 53) (-1074).

(** The real value of a float; 0 for infinities and NaN. *)
Definition SF2R (f : SpecFloat.spec_float) : R :=
  match f with
  | SpecFloat.S754_finite s m e =>
      ((if s then -1 else 1) * IZR (Zpos m) * pow2 e)%R
  | _ => 0%R
  end.

Definition finite_SF (f : SpecFloat.spec_float) : Prop :=
  match f with
  | SpecFloat.S754_zero _ | SpecFloat.S754_finite _ _ _ => True
  | _ => False
  end.

Definition sign_R (s : bool) : R := if s then (-1)%R else 1%R.

(** A mantissa and exponent in the form binary64 stores them. *)
Definition canonical (m : positive) (e : Z) : Prop :=
  fexp64 (SpecFloat.Zdigits2 (Zpos m) + e) = e.

Definition F2R (x : float) : R := SF2R (FloatOps.Prim2SF x).

Definition finite_float (x : float) : Prop := finite_SF (FloatOps.Prim2SF x).

(** [2^-53], the relative error of one rounding, and [2^-64], a bound on
    the absolute error [2^-1075] of a rounding to a subnormal. *)
Definition unit_roundoff : R := (/ 9007199254740992)%R.

Definition tiny : R := (/ 18446744073709551616)%R.

(** ** show_animation *)

(** What a call can return: [None] or an [IPython.display.HTML] object
    carrying its markup. *)
Inductive display_value : Type :=
| PyNone
| HTML (data : string).

Definition dquote : string := String (ascii_of_nat 34) EmptyString.

(** [return HTML(f'<img alt="spring double pendulum animation" src={animation_path}>')] *)
Definition show_animation (animation_path : string) : display_value :=
  HTML ("<img alt=" ++ dquote ++ "spring double pendulum animation" ++ dquote
        ++ " src=" ++ animation_path ++ ">")%string.

(** ** make_animation *)

(** The four rows unpacked by [x1, y1, x2, y2 = position]. *)
Record position : Type := {
  x1 : list float;
  y1 : list float;
  x2 : list float;
  y2 : list float
}.

(** The [xlim] / [ylim] argument: [None], one number (what the annotation
    and the docstring say) or a (low, high) pair (what [plt.xlim] is
    usually given). *)
Inductive limit_arg : Type :=
| NoLimit
| LimitNumber (v : float)
| LimitPair (lo hi : float).

Record arguments : Type := {
  t : list float;
  pos : position;
  save_path : string;
  circle_radius : option float;
  fps : Z;
  n_seconds : Z;
  decay_time : Z;
  xpad : option float;
  ypad : option float;
  xlim : limit_arg;
  ylim : limit_arg
}.

(** A call that leaves every keyword argument at its default. *)
Definition with_defaults (t : list float) (p : position) (path : string)
  : arguments :=
  {| t := t; pos := p; save_path := path; circle_radius := None;
     fps := 50; n_seconds := 20; decay_time := 250;
     xpad := None; ypad := None; xlim := NoLimit; ylim := NoLimit |}.

(** What the axes were asked to show: the arguments of the accepted calls
    of [plt.xlim] and of [plt.ylim], in order; a call with two numbers is
    recorded as the pair. *)
Record axes : Type := {
  xlim_calls : list limit_arg;
  ylim_calls : list limit_arg
}.

(** Artist data after one call of [animate]: the two lines as
    (xdata, ydata) and the two scatters as rows (x, y). *)
Record frame : Type := {
  line1 : list float * list float;
  line2 : list float * list float;
  scatter1 : list (float * float);
  scatter2 : list (float * float)
}.

(** [if not pad: pad = 0.1 * abs(lo)]; the literal is the double nearest
    to 0.1. *)
Definition pad_or_default (pad : option float) (lo : float) : float :=
  match pad with
  | Some v => if negb (truthy pad) then (0x1.999999999999ap-4 * abs lo)%float else v
  | None => (0x1.999999999999ap-4 * abs lo)%float
  end.

(** Truth value of a limit argument: a pair is a non-empty tuple. *)
Definition limit_truthy (a : limit_arg) : bool :=
  match a with
  | NoLimit => false
  | LimitNumber v => negb (v =? 0)%float
  | LimitPair _ _ => true
  end.

(** [np.isfinite] on every number of a limit argument. *)
Definition limit_finite (a : limit_arg) : bool :=
  match a with
  | NoLimit => true
  | LimitNumber v => is_finite v
  | LimitPair lo hi => is_finite lo && is_finite hi
  end.

(** One call of [plt.xlim] or [plt.ylim] after the calls already made on
    that axis: matplotlib raises for a limit that is NaN or infinite. *)
Definition plt_lim (a : limit_arg) (calls : list limit_arg)
  : result (list limit_arg) :=
  if limit_finite a then Ok (calls ++ [a])
  else Raise (ValueError "Axis limits cannot be NaN or Inf").

(** [if lim: plt.xlim(lim)] *)
Definition override_lim (a : limit_arg) (calls : list limit_arg)
  : result (list limit_arg) :=
  if limit_truthy a then plt_lim a calls else Ok calls.

(** The set-up of the axes: the box of the second pendulum with its
    padding first, then the explicit limits. *)
Definition axis_limits (a : arguments) : result axes :=
  x_min <- Np.min (x2 (pos a)) ;;
  x_max <- Np.max (x2 (pos a)) ;;
  y_min <- Np.min (y2 (pos a)) ;;
  y_max <- Np.max (y2 (pos a)) ;;
  let xpad := pad_or_default (xpad a) x_min in
  let ypad := pad_or_default (ypad a) y_min in
  xs <- plt_lim (LimitPair (x_min - xpad)%float (x_max + xpad)%float) [] ;;
  ys <- plt_lim (LimitPair (y_min - ypad)%float (y_max + ypad)%float) [] ;;
  xs' <- override_lim (xlim a) xs ;;
  ys' <- override_lim (ylim a) ys ;;
  Ok {| xlim_calls := xs'; ylim_calls := ys' |}.

(** [skip = int(total_frames / n_frames)] with [n_frames = fps * n_seconds]. *)
Definition compute_skip (total_frames fps n_seconds : Z) : result Z :=
  let n_frames := fps * n_seconds in
  q <- truediv total_frames n_frames ;;
  Ok (int q).

(** [i = frame_number * skip] *)
Definition source_index (skip frame_number : Z) : Z := frame_number * skip.

(** Where the trace of frame [i] starts. *)
Definition trace_start (skip decay_time i : Z) : Z :=
  let trace_length := decay_time * skip in
  Z.max 0 (i - trace_length).

(** The nested callback, closed over the rows, [skip] and [decay_time]. *)
Definition animate (p : position) (skip decay_time frame_number : Z)
  : result frame :=
  let i := source_index skip frame_number in
  x1i <- index (x1 p) i ;;
  y1i <- index (y1 p) i ;;
  x2i <- index (x2 p) i ;;
  y2i <- index (y2 p) i ;;
  let start := trace_start skip decay_time i in
  sx1 <- slice (x1 p) start i skip ;;
  sy1 <- slice (y1 p) start i skip ;;
  sx2 <- slice (x2 p) start i skip ;;
  sy2 <- slice (y2 p) start i skip ;;
  Ok {| line1 := ([0%float; x1i], [0%float; y1i]);
        line2 := ([x1i; x2i], [y1i; y2i]);
        scatter1 := combine sx1 sy1;
        scatter2 := combine sx2 sy2 |}.

(** Where a run stopped when it raised. *)
Inductive stage : Type :=
| Setup
| Rendering (frame_number : Z).

(** [ani.save] draws the frame numbers in order and stops at the first
    exception. *)
Fixpoint render (p : position) (skip decay_time : Z) (numbers : list Z)
  : list frame + Z * exn :=
  match numbers with
  | [] => inl []
  | k :: rest =>
      match animate p skip decay_time k with
      | Raise e => inr (k, e)
      | Ok f =>
          match render p skip decay_time rest with
          | inl fs => inl (f :: fs)
          | inr stop => inr stop
          end
      end
  end.

(** What a call of [make_animation] comes to: the animation written to
    [save_path], or the exception that ended it.  The writer's own
    failures are outside the model. *)
Inductive outcome : Type :=
| Saved (path : string) (ax : axes) (circle : option float)
        (frames : list frame)
| Failed (at_stage : stage) (e : exn).

(** [FuncAnimation(fig, animate, frames=n_frames, ...)] draws the frame
    numbers of [range(n_frames)].  It raises, before any frame is drawn,
    for a negative count and, with OverflowError, for a count beyond the
    largest index of the platform, 2^63 - 1. *)
Definition frame_numbers (n_frames : Z) : result (list Z) :=
  if n_frames <? 0 then Raise (LibraryError "FuncAnimation")
  else if 2 ^ 63 <=? n_frames then Raise OverflowError
  else Ok (range n_frames).

Definition make_animation (a : arguments) : outcome :=
  match axis_limits a with
  | Raise e => Failed Setup e
  | Ok ax =>
      let circle := if truthy (circle_radius a) then circle_radius a else None in
      let total_frames := len (t a) in
      match compute_skip total_frames (fps a) (n_seconds a) with
      | Raise e => Failed Setup e
      | Ok skip =>
          match frame_numbers (fps a * n_seconds a) with
          | Raise e => Failed Setup e
          | Ok numbers =>
              match render (pos a) skip (decay_time a) numbers with
              | inl frames => Saved (save_path a) ax circle frames
              | inr (k, e) => Failed (Rendering k) e
              end
          end
      end
  end.

(** A run is turned down before rendering when it raises in the set-up
    part. *)
Definition rejected_before_rendering (o : outcome) : Prop :=
  match o with
  | Failed Setup _ => True
  | _ => False
  end.

(** The rows of a position array of [n] columns. *)
Definition rows_of_length (p : position) (n : Z) : Prop :=
  len (x1 p) = n /\ len (y1 p) = n /\ len (x2 p) = n /\ len (y2 p) = n.

(** ** The slice in the words of the specification *)

(** Every [stride]-th index counted from [start], up to but excluding
    [stop]. *)
Definition every_stride_from (start stop stride : Z) : list Z :=
  filter (fun j => (start <=? j) && ((j - start) mod stride =? 0))
         (range stop).

(** The sample of a row at an index inside it. *)
Definition sample (a : list float) (j : Z) : float :=
  nth (Z.to_nat j) a 0%float.

(** The frame expected for frame number [k]: the two segments end at the
    samples of index [k * skip], and each trace holds the samples of the
    window that ends just before that index. *)
Definition frame_at (p : position) (skip decay_time k : Z) : frame :=
  let i := k * skip in
  let w := every_stride_from (Z.max 0 (i - decay_time * skip)) i skip in
  {| line1 := ([0%float; sample (x1 p) i], [0%float; sample (y1 p) i]);
     line2 := ([sample (x1 p) i; sample (x2 p) i],
               [sample (y1 p) i; sample (y2 p) i]);
     scatter1 := map (fun j => (sample (x1 p) j, sample (y1 p) j)) w;
     scatter2 := map (fun j => (sample (x2 p) j, sample (y2 p) j)) w |}.

(** An explicit limit is honoured when the axis was asked to show it. *)
Definition limit_honoured (a : limit_arg) (calls : list limit_arg) : Prop :=
  match a with
  | NoLimit => True
  | _ => In a calls
  end.

(** [floor(N / m)] on the exact quotient. *)
Definition floor_quotient (N m : Z) : Z := Qfloor (inject_Z N / inject_Z m).

(** ** Sample calls *)

(** The samples 0, 1, ..., n-1 as floats. *)
Definition ramp (n : Z) : list float := map float_of_Z (range n).

(** A position array whose rows all hold the given samples. *)
Definition same_rows (row : list float) : position :=
  {| x1 := row; y1 := row; x2 := row; y2 := row |}.

(** 100 samples with the default fps = 50 and n_seconds = 20: 1000 frames
    are requested. *)
Definition call_100 : arguments :=
  with_defaults (ramp 100) (same_rows (ramp 100)) "pendulum.gif".

(** 6 samples drawn as 3 frames, with a trace of one stride. *)
Definition call_6 : arguments :=
  {| t := ramp 6; pos := same_rows (ramp 6); save_path := "pendulum.gif";
     circle_radius := None; fps := 1; n_seconds := 3; decay_time := 1;
     xpad := None; ypad := None; xlim := NoLimit; ylim := NoLimit |}.

(** 3 samples and a negative frame rate. *)
Definition call_negative_fps : arguments :=
  {| t := ramp 3; pos := same_rows (ramp 3); save_path := "pendulum.gif";
     circle_radius := None; fps := -1; n_seconds := 2; decay_time := 250;
     xpad := None; ypad := None; xlim := NoLimit; ylim := NoLimit |}.

(** Samples 1..2 on the x axis of the second pendulum and [xlim = 0.0]. *)
Definition call_xlim_zero : arguments :=
  {| t := ramp 2;
     pos := {| x1 := [1; 2]%float; y1 := [1; 2]%float;
               x2 := [1; 2]%float; y2 := [1; 2]%float |};
     save_path := "pendulum.gif";
     circle_radius := None; fps := 1; n_seconds := 2; decay_time := 250;
     xpad := None; ypad := None; xlim := LimitNumber 0%float; ylim := NoLimit |}.



(** The same call with other time stamps, limits or circle radius. *)
Definition with_t (a : arguments) (t' : list float) : arguments :=
  {| t := t'; pos := pos a; save_path := save_path a;
     circle_radius := circle_radius a; fps := fps a; n_seconds := n_seconds a;
     decay_time := decay_time a; xpad := xpad a; ypad := ypad a;
     xlim := xlim a; ylim := ylim a |}.

Definition with_xlim (a : arguments) (l : limit_arg) : arguments :=
  {| t := t a; pos := pos a; save_path := save_path a;
     circle_radius := circle_radius a; fps := fps a; n_seconds := n_seconds a;
     decay_time := decay_time a; xpad := xpad a; ypad := ypad a;
     xlim := l; ylim := ylim a |}.

Definition with_ylim (a : arguments) (l : limit_arg) : arguments :=
  {| t := t a; pos := pos a; save_path := save_path a;
     circle_radius := circle_radius a; fps := fps a; n_seconds := n_seconds a;
     decay_time := decay_time a; xpad := xpad a; ypad := ypad a;
     xlim := xlim a; ylim := l |}.

Definition with_circle_radius (a : arguments) (r : option float) : arguments :=
  {| t := t a; pos := pos a; save_path := save_path a;
     circle_radius := r; fps := fps a; n_seconds := n_seconds a;
     decay_time := decay_time a; xpad := xpad a; ypad := ypad a;
     xlim := xlim a; ylim := ylim a |}.

(** The frame numbers whose points make up the trace of frame [k]: the
    [decay_time] frames before it, or all of them when there are fewer. *)
Definition previous_frames (decay_time k : Z) : list Z :=
  let first := Z.max 0 (k - decay_time) in
  map (fun m => first + m) (range (k - first)).

(** The first frame number whose source index falls outside rows of [M]
    columns. *)
Definition first_frame_outside (M skip : Z) : Z := (M + skip - 1) / skip.

(** 6 time stamps for 3 frames of stride 2, on rows of only 3 columns. *)
Definition call_short_rows : arguments :=
  {| t := ramp 6; pos := same_rows (ramp 3); save_path := "pendulum.gif";
     circle_radius := None; fps := 1; n_seconds := 3; decay_time := 1;
     xpad := None; ypad := None; xlim := NoLimit; ylim := NoLimit |}.

(** Six unevenly spaced time stamps. *)
Definition uneven_times : list float := [0; 1; 4; 9; 16; 25]%float.

(** Closes a goal on a concrete call by evaluation. *)
Ltac evaluate :=
  vm_compute;
  first [ reflexivity | discriminate | (intro; discriminate) | lia ].

(** * Properties *)

(** ** The stride *)

Section Stride.

(** A rational is non-negative exactly when its floor is. *)
Lemma Qle_bool_floor (q : Q) : Qle_bool 0 q = (0 <=? Qfloor q).
Proof.
  destruct (Z.leb_spec 0 (Qfloor q)) as [H | H].
  - apply Qle_bool_iff.
    apply Qle_trans with (inject_Z (Qfloor q)).
    + change (inject_Z 0 <= inject_Z (Qfloor q))%Q.
      rewrite <- Zle_Qle. exact H.
    + apply Qfloor_le.
  - destruct (Qle_bool 0 q) eqn:E; [| reflexivity].
    apply Qle_bool_iff in E. apply Qfloor_resp_le in E.
    change (Qfloor 0) with 0 in E. lia.
Qed.

Lemma Qceiling_truediv (a b : Z) :
  Qceiling (inject_Z a / inject_Z b) = - ((- a) / b).
Proof.
  unfold Qceiling. f_equal.
  rewrite (Zdiv_Qdiv (- a) b).
  apply Qfloor_comp.
  rewrite inject_Z_opp. unfold Qdiv. ring.
Qed.

Lemma div_sign_mixed (a b : Z) :
  (a < 0 < b) \/ (b < 0 < a) -> a / b < 0.
Proof.
  intros H.
  assert (Hb : b <> 0) by lia.
  pose proof (Z.div_mod a b Hb) as E.
  destruct H as [[Ha Hb'] | [Hb' Ha]].
  - pose proof (Z.mod_pos_bound a b Hb'). nia.
  - pose proof (Z.mod_neg_bound a b Hb'). nia.
Qed.

Lemma div_sign_same (a b : Z) :
  (0 <= a /\ 0 < b) \/ (a <= 0 /\ b < 0) -> 0 <= a / b.
Proof.
  intros [[Ha Hb] | [Ha Hb]].
  - apply Z.div_pos; lia.
  - rewrite <- Z.div_opp_opp by lia. apply Z.div_pos; lia.
Qed.

(** [int(a / b)] is the quotient truncated toward zero. *)
Lemma int_truediv (a b : Z) :
  b <> 0 -> int (inject_Z a / inject_Z b) = a ÷ b.
Proof.
  intros Hb. unfold int.
  rewrite Qle_bool_floor, <- Zdiv_Qdiv, Qceiling_truediv.
  destruct (Z.leb_spec 0 (a / b)) as [H | H].
  - assert (S : (0 <= a /\ 0 < b) \/ (a <= 0 /\ b < 0)).
    { pose proof (div_sign_mixed a b). lia. }
    destruct S as [[Ha Hb'] | [Ha Hb']].
    + symmetry. apply Z.quot_div_nonneg; lia.
    + rewrite <- Z.quot_opp_opp by lia.
      rewrite <- Z.div_opp_opp by lia.
      symmetry. apply Z.quot_div_nonneg; lia.
  - assert (S : (a < 0 < b) \/ (b < 0 < a)).
    { pose proof (div_sign_same a b). lia. }
    destruct S as [[Ha Hb'] | [Hb' Ha]].
    + rewrite <- (Z.opp_involutive a) at 2.
      rewrite Z.quot_opp_l by lia. f_equal.
      symmetry. apply Z.quot_div_nonneg; lia.
    + remember (- b) as c eqn:Ec.
      assert (Eb : b = - c) by lia. rewrite Eb.
      rewrite Z.div_opp_opp, Z.quot_opp_r by lia. f_equal.
      symmetry. apply Z.quot_div_nonneg; lia.
Qed.

Lemma compute_skip_quot (N fps n_seconds : Z) :
  fps * n_seconds <> 0 ->
  compute_skip N fps n_seconds = Ok (N ÷ (fps * n_seconds)).
Proof.
  intros H. unfold compute_skip, truediv.
  destruct (Z.eqb_spec (fps * n_seconds) 0) as [E | _]; [contradiction |].
  simpl. f_equal. apply int_truediv, H.
Qed.

Lemma compute_skip_zero_frames (N fps n_seconds : Z) :
  fps * n_seconds = 0 ->
  compute_skip N fps n_seconds = Raise ZeroDivisionError.
Proof.
  intros H. unfold compute_skip, truediv. rewrite H. reflexivity.
Qed.

Lemma floor_quotient_div (N m : Z) : floor_quotient N m = N / m.
Proof. unfold floor_quotient. symmetry. apply Zdiv_Qdiv. Qed.

End Stride.

Section StrideClaims.

(** C3, amended: for a time array of length N > 0, [make_animation]
    computes the stride as N / (fps * n_seconds) truncated toward zero
    whenever fps * n_seconds is not 0; this is floor(N / (fps *
    n_seconds)) whenever fps * n_seconds > 0; and when fps * n_seconds is
    0 the division raises ZeroDivisionError, so no stride is computed. *)
Theorem stride_is_truncated_quotient (a : arguments) :
  0 < len (t a) ->
  let N := len (t a) in
  let n_frames := fps a * n_seconds a in
  (n_frames <> 0 ->
   compute_skip N (fps a) (n_seconds a) = Ok (N ÷ n_frames)) /\
  (0 < n_frames ->
   compute_skip N (fps a) (n_seconds a) = Ok (floor_quotient N n_frames)) /\
  (n_frames = 0 ->
   compute_skip N (fps a) (n_seconds a) = Raise ZeroDivisionError).
Proof.
  intros HN N n_frames. subst N n_frames. repeat split.
  - apply compute_skip_quot.
  - intros Hpos. rewrite compute_skip_quot by lia. f_equal.
    rewrite floor_quotient_div. apply Z.quot_div_nonneg; lia.
  - apply compute_skip_zero_frames.
Qed.

(** C2, amended: the stride is at least 1 exactly when the requested
    frame count fps * n_seconds (taken positive) does not exceed the
    number of samples N; when it exceeds N the stride is 0, not 1. *)
Theorem stride_at_least_one_iff (a : arguments) :
  0 < fps a * n_seconds a ->
  exists s,
    compute_skip (len (t a)) (fps a) (n_seconds a) = Ok s /\
    (1 <= s <-> fps a * n_seconds a <= len (t a)) /\
    (len (t a) < fps a * n_seconds a -> s = 0).
Proof.
  intros Hpos.
  assert (HN : 0 <= len (t a)) by (unfold len; lia).
  exists (len (t a) / (fps a * n_seconds a)).
  split; [| split].
  - rewrite compute_skip_quot by lia. f_equal.
    apply Z.quot_div_nonneg; lia.
  - split; intros H.
    + destruct (Z_lt_le_dec (len (t a)) (fps a * n_seconds a)) as [Hlt | Hle];
        [| exact Hle].
      rewrite Z.div_small in H by lia. lia.
    + apply Z.div_le_lower_bound; lia.
  - intros H. apply Z.div_small. lia.
Qed.

End StrideClaims.

(** ** Ranges, sorted index lists and slices *)

Section Slices.

Lemma In_range (j n : Z) : In j (range n) <-> 0 <= j < n.
Proof.
  unfold range. rewrite in_map_iff. split.
  - intros (m & <- & Hm). apply in_seq in Hm. lia.
  - intros H. exists (Z.to_nat j). split; [lia | apply in_seq; lia].
Qed.

Lemma len_range (n : Z) : len (range n) = Z.max 0 n.
Proof. unfold len, range. rewrite length_map, length_seq. lia. Qed.

Lemma len_map {A B : Type} (f : A -> B) (l : list A) : len (map f l) = len l.
Proof. unfold len. now rewrite length_map. Qed.

Lemma range_nth (n k : Z) :
  0 <= k < n -> nth_error (range n) (Z.to_nat k) = Some k.
Proof.
  intros H. unfold range.
  rewrite nth_error_map, nth_error_seq.
  destruct (Nat.ltb_spec (Z.to_nat k) (Z.to_nat n)); simpl; [f_equal |]; lia.
Qed.

Lemma sorted_of_nat_seq (m start : nat) :
  StronglySorted Z.lt (map Z.of_nat (seq start m)).
Proof.
  revert start. induction m as [| m IH]; intros start; simpl.
  - constructor.
  - constructor; [apply IH |].
    apply Forall_forall. intros y Hy.
    apply in_map_iff in Hy. destruct Hy as (z & <- & Hz).
    apply in_seq in Hz. lia.
Qed.

Lemma range_sorted (n : Z) : StronglySorted Z.lt (range n).
Proof. apply sorted_of_nat_seq. Qed.

Lemma sorted_filter (f : Z -> bool) (l : list Z) :
  StronglySorted Z.lt l -> StronglySorted Z.lt (filter f l).
Proof.
  induction 1 as [| x l Hs IH Hall]; simpl.
  - constructor.
  - destruct (f x); [| exact IH].
    constructor; [exact IH |].
    apply Forall_forall. intros y Hy. apply filter_In in Hy.
    rewrite Forall_forall in Hall. apply Hall, Hy.
Qed.

Lemma sorted_map_increasing (f : Z -> Z) (l : list Z) :
  (forall x y, x < y -> f x < f y) ->
  StronglySorted Z.lt l -> StronglySorted Z.lt (map f l).
Proof.
  intros Hf. induction 1 as [| x l Hs IH Hall]; simpl; constructor.
  - exact IH.
  - apply Forall_forall. intros y Hy.
    apply in_map_iff in Hy. destruct Hy as (z & <- & Hz).
    rewrite Forall_forall in Hall. apply Hf, Hall, Hz.
Qed.

(** A strictly increasing list is determined by its elements. *)
Lemma sorted_same_elements (l1 l2 : list Z) :
  StronglySorted Z.lt l1 -> StronglySorted Z.lt l2 ->
  (forall x, In x l1 <-> In x l2) -> l1 = l2.
Proof.
  intros H1. revert l2.
  induction H1 as [| a l1 Hs1 IH Ha]; intros l2 H2 Hin.
  - destruct l2 as [| b l2]; [reflexivity |].
    exfalso. apply (proj2 (Hin b)). now left.
  - destruct H2 as [| b l2 Hs2 Hb].
    + exfalso. apply (proj1 (Hin a)). now left.
    + rewrite Forall_forall in Ha, Hb.
      assert (Eab : a = b).
      { destruct (proj1 (Hin a) (or_introl eq_refl)) as [E | Hi]; [auto |].
        destruct (proj2 (Hin b) (or_introl eq_refl)) as [E | Hj]; [auto |].
        specialize (Ha _ Hj). specialize (Hb _ Hi). lia. }
      subst b. f_equal. apply IH; [exact Hs2 |].
      intros x. split; intros Hx.
      * destruct (proj1 (Hin x) (or_intror Hx)) as [E | Hi]; [| exact Hi].
        specialize (Ha _ Hx). lia.
      * destruct (proj2 (Hin x) (or_intror Hx)) as [E | Hi]; [| exact Hi].
        specialize (Hb _ Hx). lia.
Qed.

Lemma adjust_forward (n step v : Z) :
  1 <= step -> 0 <= v -> adjust n step v = Z.min v n.
Proof.
  intros Hs Hv. unfold adjust.
  destruct (Z.ltb_spec v 0); [lia |].
  destruct (Z.leb_spec n v); destruct (Z.ltb_spec step 0); lia.
Qed.

(** The members of a forward arithmetic progression cut at [e]. *)
Lemma progression_members (s e step j : Z) :
  1 <= step ->
  (exists m, 0 <= m < slice_length s e step /\ j = s + m * step) <->
  (s <= j < e /\ (j - s) mod step = 0).
Proof.
  intros Hs. unfold slice_length.
  destruct (Z.ltb_spec step 0); [lia |].
  destruct (Z.ltb_spec s e) as [Hlt | Hge].
  - split.
    + intros (m & Hm & ->).
      assert (Hq : step * ((e - s - 1) / step) <= e - s - 1)
        by (apply Z.mul_div_le; lia).
      split; [nia |].
      replace (s + m * step - s) with (m * step) by lia.
      apply Z.mod_mul. lia.
    + intros (Hj & Hmod).
      exists ((j - s) / step).
      apply Z.div_exact in Hmod; [| lia].
      assert (H0 : 0 <= (j - s) / step) by (apply Z.div_pos; lia).
      assert (Hle : (j - s) / step <= (e - s - 1) / step)
        by (apply Z.div_le_mono; lia).
      split; lia.
  - split.
    + intros (m & Hm & _). lia.
    + intros (Hj & _). lia.
Qed.

Lemma In_every_stride_from (start stop stride j : Z) :
  In j (every_stride_from start stop stride) <->
  0 <= j < stop /\ start <= j /\ (j - start) mod stride = 0.
Proof.
  unfold every_stride_from. rewrite filter_In, In_range, andb_true_iff.
  rewrite Z.leb_le, Z.eqb_eq. tauto.
Qed.

Lemma In_progression (s step c j : Z) :
  In j (map (fun m => s + m * step) (range c)) <->
  exists m, 0 <= m < c /\ j = s + m * step.
Proof.
  rewrite in_map_iff. split.
  - intros (m & <- & Hm). apply In_range in Hm. eauto.
  - intros (m & Hm & ->). exists m. split; [reflexivity | now apply In_range].
Qed.

(** A forward slice whose stop lies inside the array reads every
    [step]-th index from [start] up to but excluding [stop]. *)
Lemma slice_indices_forward (n start stop step : Z) :
  1 <= step -> 0 <= start -> 0 <= stop <= n ->
  slice_indices n start stop step = Ok (every_stride_from start stop step).
Proof.
  intros Hs H0 Hstop. unfold slice_indices.
  destruct (Z.eqb_spec step 0); [lia |]. f_equal.
  rewrite !adjust_forward by lia.
  apply sorted_same_elements.
  - apply sorted_map_increasing; [intros; nia | apply range_sorted].
  - apply sorted_filter, range_sorted.
  - intros j. rewrite In_progression, progression_members by lia.
    rewrite In_every_stride_from.
    destruct (Z_lt_le_dec start stop) as [Hlt | Hge].
    + replace (Z.min start n) with start by lia.
      replace (Z.min stop n) with stop by lia. intuition lia.
    + split; intros H; exfalso; lia.
Qed.

End Slices.

(** ** The callback and the rendering loop *)

Section Frames.

Lemma index_inside (a : list float) (i : Z) :
  0 <= i < len a -> index a i = Ok (sample a i).
Proof.
  unfold index, len, sample. intros H.
  destruct (Z.ltb_spec i 0); [lia |].
  destruct (Z.ltb_spec i 0); [lia |].
  rewrite (nth_error_nth' a 0%float) by lia. reflexivity.
Qed.

Lemma gather_inside (a : list float) (idx : list Z) :
  Forall (fun j => 0 <= j < len a) idx -> gather a idx = map (sample a) idx.
Proof.
  unfold gather, sample, len.
  induction 1 as [| j idx Hj _ IH]; simpl; [reflexivity |].
  rewrite (nth_error_nth' a 0%float) by lia. simpl. now rewrite IH.
Qed.

Lemma length_gather_le {A : Type} (a : list A) (idx : list Z) :
  (length (gather a idx) <= length idx)%nat.
Proof.
  unfold gather. induction idx as [| j idx IH]; simpl; [lia |].
  rewrite length_app. destruct (nth_error a (Z.to_nat j)); simpl; lia.
Qed.

Lemma slice_forward (a : list float) (start stop step : Z) :
  1 <= step -> 0 <= start -> 0 <= stop <= len a ->
  slice a start stop step
  = Ok (map (sample a) (every_stride_from start stop step)).
Proof.
  intros Hs H0 Hstop. unfold slice.
  rewrite slice_indices_forward by assumption. simpl. f_equal.
  apply gather_inside, Forall_forall.
  intros j Hj. apply In_every_stride_from in Hj. lia.
Qed.

Lemma combine_maps {A B C : Type} (f : A -> B) (g : A -> C) (l : list A) :
  combine (map f l) (map g l) = map (fun x => (f x, g x)) l.
Proof. induction l as [| x l IH]; simpl; [reflexivity | now rewrite IH]. Qed.

(** On rows of one length, a frame number whose source index lies inside
    the rows yields the expected frame. *)
Lemma animate_frame_at (p : position) (skip decay k n : Z) :
  rows_of_length p n -> 1 <= skip -> 0 <= k -> k * skip < n ->
  animate p skip decay k = Ok (frame_at p skip decay k).
Proof.
  intros (Hx1 & Hy1 & Hx2 & Hy2) Hs Hk Hi.
  assert (H0 : 0 <= k * skip) by nia.
  unfold animate, source_index, trace_start, frame_at.
  rewrite !index_inside by lia. simpl.
  rewrite !slice_forward by lia. simpl.
  now rewrite !combine_maps.
Qed.

Lemma index_inversion (a : list float) (i : Z) (v : float) :
  0 <= i -> index a i = Ok v -> i < len a /\ v = sample a i.
Proof.
  intros Hi H.
  destruct (Z_lt_le_dec i (len a)) as [Hlt | Hge].
  - rewrite index_inside in H by lia. injection H as <-. auto.
  - exfalso. unfold index, len in *.
    destruct (Z.ltb_spec i 0); [lia |].
    destruct (Z.ltb_spec i 0); [lia |].
    destruct (nth_error a (Z.to_nat i)) eqn:E; [| discriminate].
    assert (nth_error a (Z.to_nat i) <> None) as Hs by congruence.
    apply nth_error_Some in Hs. lia.
Qed.

(** Whatever the rows, a frame returned for a forward stride is the
    expected one. *)
Lemma animate_inversion (p : position) (skip decay k : Z) (fr : frame) :
  1 <= skip -> 0 <= k ->
  animate p skip decay k = Ok fr -> fr = frame_at p skip decay k.
Proof.
  intros Hs Hk H.
  assert (H0 : 0 <= k * skip) by nia.
  unfold animate, source_index, trace_start in H.
  destruct (index (x1 p) (k * skip)) as [vx1 |] eqn:Ex1; [| discriminate].
  destruct (index (y1 p) (k * skip)) as [vy1 |] eqn:Ey1; [| discriminate].
  destruct (index (x2 p) (k * skip)) as [vx2 |] eqn:Ex2; [| discriminate].
  destruct (index (y2 p) (k * skip)) as [vy2 |] eqn:Ey2; [| discriminate].
  apply index_inversion in Ex1, Ey1, Ex2, Ey2; try assumption.
  destruct Ex1 as [Lx1 ->], Ey1 as [Ly1 ->], Ex2 as [Lx2 ->], Ey2 as [Ly2 ->].
  simpl in H. rewrite !slice_forward in H by lia. simpl in H.
  injection H as <-. unfold frame_at. now rewrite !combine_maps.
Qed.

Lemma render_frames (p : position) (skip decay n : Z) (numbers : list Z) :
  rows_of_length p n -> 1 <= skip ->
  Forall (fun k => 0 <= k /\ k * skip < n) numbers ->
  render p skip decay numbers = inl (map (frame_at p skip decay) numbers).
Proof.
  intros Hrows Hs. induction 1 as [| k rest [Hk Hi] _ IH]; simpl.
  - reflexivity.
  - rewrite (animate_frame_at p skip decay k n) by assumption.
    now rewrite IH.
Qed.

(** With a stride of 0 the first slice raises. *)
Lemma animate_zero_stride (p : position) (decay k n : Z) :
  rows_of_length p n -> 1 <= n ->
  animate p 0 decay k = Raise (ValueError "slice step cannot be zero").
Proof.
  intros (Hx1 & Hy1 & Hx2 & Hy2) Hn.
  unfold animate, source_index. rewrite Z.mul_0_r.
  rewrite !index_inside by lia. reflexivity.
Qed.

(** A frame count that [FuncAnimation] accepts is drawn as its range. *)
Lemma frame_numbers_range (n : Z) :
  0 <= n < 2 ^ 63 -> frame_numbers n = Ok (range n).
Proof.
  intros H. unfold frame_numbers.
  destruct (Z.ltb_spec n 0); [lia |].
  destruct (Z.leb_spec (2 ^ 63) n); [lia | reflexivity].
Qed.

Lemma frame_numbers_inversion (n : Z) (numbers : list Z) :
  frame_numbers n = Ok numbers -> 0 <= n < 2 ^ 63 /\ numbers = range n.
Proof.
  unfold frame_numbers.
  destruct (Z.ltb_spec n 0) as [Hneg | Hpos]; [discriminate |].
  destruct (Z.leb_spec (2 ^ 63) n) as [Hbig | Hsmall]; [discriminate |].
  intros E. injection E as <-. split; [lia | reflexivity].
Qed.

(** A stride of at least 1 means a positive frame count, and the stride
    is then the floor quotient. *)
Lemma positive_stride (N fps n_seconds s : Z) :
  0 <= N -> compute_skip N fps n_seconds = Ok s -> 1 <= s ->
  0 < fps * n_seconds /\ s = N / (fps * n_seconds).
Proof.
  intros HN E Hs.
  destruct (Z.eq_dec (fps * n_seconds) 0) as [H0 | H0].
  - rewrite compute_skip_zero_frames in E by assumption. discriminate.
  - rewrite compute_skip_quot in E by assumption.
    injection E as <-.
    destruct (Z_lt_le_dec 0 (fps * n_seconds)) as [Hpos | Hneg].
    + split; [exact Hpos |]. apply Z.quot_div_nonneg; lia.
    + exfalso.
      remember (- (fps * n_seconds)) as m eqn:Em.
      assert (Ef : fps * n_seconds = - m) by lia. rewrite Ef in Hs.
      rewrite Z.quot_opp_r in Hs by lia.
      assert (0 <= N ÷ m) by (apply Z.quot_pos; lia). lia.
Qed.

(** Frame numbers below the frame count keep the source index below the
    number of samples. *)
Lemma source_index_inside (N n_frames k : Z) :
  0 <= N -> 0 < n_frames -> 0 <= k < n_frames ->
  0 <= k * (N / n_frames) /\ (1 <= N / n_frames -> k * (N / n_frames) < N).
Proof.
  intros HN Hf Hk.
  assert (Hq : 0 <= N / n_frames) by (apply Z.div_pos; lia).
  assert (Hm : n_frames * (N / n_frames) <= N) by (apply Z.mul_div_le; lia).
  split; [nia |]. intros H1. nia.
Qed.

End Frames.

Section FrameClaims.

Lemma range_starts_at_zero (n : Z) :
  0 < n -> exists rest, range n = 0 :: rest.
Proof.
  intros H. unfold range.
  destruct (Z.to_nat n) as [| m] eqn:E; [lia |].
  simpl. eauto.
Qed.

(** C1, amended: when fps * n_seconds exceeds the number of samples N
    (N >= 1, position rows of length N), with axis limits that matplotlib
    accepts (none NaN or infinite) and a frame count below 2^63,
    [make_animation] makes no check before rendering: the stride computes
    to 0, the callback raises the slice's own ValueError (slice step
    cannot be zero) for every frame number, and the call ends with it
    while drawing frame 0; nothing is saved. *)
Theorem too_many_frames_fail_at_first_frame (a : arguments) (ax : axes) :
  rows_of_length (pos a) (len (t a)) ->
  1 <= len (t a) ->
  len (t a) < fps a * n_seconds a ->
  fps a * n_seconds a < 2 ^ 63 ->
  axis_limits a = Ok ax ->
  compute_skip (len (t a)) (fps a) (n_seconds a) = Ok 0 /\
  (forall k, animate (pos a) 0 (decay_time a) k
             = Raise (ValueError "slice step cannot be zero")) /\
  make_animation a
  = Failed (Rendering 0) (ValueError "slice step cannot be zero").
Proof.
  intros Hrows HN Hmany Hbound Eax.
  assert (Eskip : compute_skip (len (t a)) (fps a) (n_seconds a) = Ok 0).
  { rewrite compute_skip_quot by lia. f_equal. apply Z.quot_small. lia. }
  split; [exact Eskip |]. split.
  - intros k. apply (animate_zero_stride _ _ _ _ Hrows HN).
  - destruct (range_starts_at_zero (fps a * n_seconds a)) as [rest Er]; [lia |].
    unfold make_animation.
    rewrite Eax, Eskip, frame_numbers_range, Er by lia. simpl.
    now rewrite (animate_zero_stride _ _ _ _ Hrows HN).
Qed.

(** C4: for a valid input with N >= 1 samples and stride s >= 1, the
    source index of output frame k is k * s: over k = 0 .. fps *
    n_seconds - 1 the indices are 0, s, 2s, ..., strictly increasing and
    all below N; the callback returns for each of them the frame built
    from that index, and these are the frames saved when matplotlib
    accepts the axis limits and the frame count is below 2^63. *)
Theorem frame_indices_are_multiples_of_stride (a : arguments) (s : Z) :
  rows_of_length (pos a) (len (t a)) ->
  1 <= len (t a) ->
  compute_skip (len (t a)) (fps a) (n_seconds a) = Ok s ->
  1 <= s ->
  let n_frames := fps a * n_seconds a in
  let indices := map (source_index s) (range n_frames) in
  (forall k, 0 <= k < n_frames ->
             nth_error indices (Z.to_nat k) = Some (k * s)) /\
  len indices = n_frames /\
  StronglySorted Z.lt indices /\
  Forall (fun i => 0 <= i < len (t a)) indices /\
  render (pos a) s (decay_time a) (range n_frames)
  = inl (map (frame_at (pos a) s (decay_time a)) (range n_frames)) /\
  (forall ax,
      axis_limits a = Ok ax -> n_frames < 2 ^ 63 ->
      exists circle,
        make_animation a
        = Saved (save_path a) ax circle
                (map (frame_at (pos a) s (decay_time a)) (range n_frames))).
Proof.
  intros Hrows HN Eskip Hs n_frames indices.
  assert (H0N : 0 <= len (t a)) by lia.
  destruct (positive_stride _ _ _ _ H0N Eskip Hs) as [Hpos Es].
  fold n_frames in Hpos, Es.
  assert (Hin : forall k, 0 <= k < n_frames -> 0 <= k * s < len (t a)).
  { intros k Hk. subst s.
    destruct (source_index_inside (len (t a)) n_frames k) as [H0 H1]; lia. }
  assert (Hrender :
            render (pos a) s (decay_time a) (range n_frames)
            = inl (map (frame_at (pos a) s (decay_time a)) (range n_frames))).
  { rewrite (render_frames _ _ _ (len (t a))); [reflexivity | assumption | lia |].
    apply Forall_forall. intros k Hk. apply In_range in Hk.
    specialize (Hin k Hk). lia. }
  split; [| split; [| split; [| split; [| split]]]].
  - intros k Hk. unfold indices.
    rewrite nth_error_map, range_nth by assumption. reflexivity.
  - unfold indices. rewrite len_map, len_range. lia.
  - apply sorted_map_increasing; [| apply range_sorted].
    intros x y Hxy. unfold source_index. nia.
  - apply Forall_forall. intros i Hi.
    apply in_map_iff in Hi. destruct Hi as (k & <- & Hk).
    apply In_range in Hk. apply Hin, Hk.
  - exact Hrender.
  - intros ax Eax Hbound.
    unfold make_animation. rewrite Eax, Eskip. fold n_frames.
    rewrite frame_numbers_range, Hrender by lia. eauto.
Qed.

(** Whatever the length [n] of the row, the slice of a trace reads at most
    [decay] indices, none of them negative. *)
Lemma trace_indices_bounded (n skip decay i : Z) :
  1 <= skip -> 0 <= decay -> 0 <= i -> 0 <= n ->
  exists idx,
    slice_indices n (trace_start skip decay i) i skip = Ok idx /\
    Forall (fun j => 0 <= j) idx /\
    len idx <= decay.
Proof.
  intros Hs Hd Hi Hn. unfold slice_indices, trace_start.
  set (start := Z.max 0 (i - decay * skip)).
  destruct (Z.eqb_spec skip 0); [lia |].
  eexists. split; [reflexivity |].
  rewrite !adjust_forward by lia. split.
  - apply Forall_forall. intros j Hj.
    apply In_progression in Hj. destruct Hj as (m & Hm & ->). nia.
  - rewrite len_map, len_range. unfold slice_length.
    destruct (Z.ltb_spec skip 0); [lia |].
    destruct (Z.ltb_spec (Z.min start n) (Z.min i n)); [| lia].
    assert ((Z.min i n - Z.min start n - 1) / skip < decay); [| lia].
    apply Z.div_lt_upper_bound; nia.
Qed.

Lemma window_length_bound (skip decay i : Z) :
  1 <= skip -> 0 <= decay -> 0 <= i ->
  len (every_stride_from (Z.max 0 (i - decay * skip)) i skip) <= decay.
Proof.
  intros Hs Hd Hi.
  destruct (trace_indices_bounded i skip decay i Hs Hd Hi Hi)
    as (idx & E & _ & Hlen).
  unfold trace_start in E.
  rewrite slice_indices_forward in E by lia.
  injection E as <-. exact Hlen.
Qed.

(** C5: for the frame of source index i = k * skip, the trace window of
    each point starts at max(0, i - decay_time * skip) and holds every
    skip-th sample from that start up to but excluding i, which is what
    the slice [start:i:skip] reads. *)
Theorem trace_window_is_strided_slice (p : position) (skip decay k : Z) :
  1 <= skip -> 0 <= k ->
  let i := source_index skip k in
  let start := Z.max 0 (i - decay * skip) in
  let window := every_stride_from start i skip in
  trace_start skip decay i = start /\
  (forall j, In j window <-> start <= j < i /\ (j - start) mod skip = 0) /\
  StronglySorted Z.lt window /\
  (forall row : list float,
      i <= len row ->
      slice row (trace_start skip decay i) i skip
      = Ok (map (sample row) window)) /\
  (forall fr,
      animate p skip decay k = Ok fr ->
      scatter1 fr = map (fun j => (sample (x1 p) j, sample (y1 p) j)) window /\
      scatter2 fr = map (fun j => (sample (x2 p) j, sample (y2 p) j)) window) /\
  (forall n,
      rows_of_length p n -> i < n -> exists fr, animate p skip decay k = Ok fr).
Proof.
  intros Hs Hk i start window.
  assert (H0 : 0 <= i) by (unfold i, source_index; nia).
  split; [reflexivity |]. split; [| split; [| split; [| split]]].
  - intros j. unfold window. rewrite In_every_stride_from. lia.
  - apply sorted_filter, range_sorted.
  - intros row Hrow. unfold trace_start. apply slice_forward; lia.
  - intros fr H. apply animate_inversion in H; [| assumption ..].
    subst fr. split; reflexivity.
  - intros n Hrows Hn. exists (frame_at p skip decay k).
    now apply (animate_frame_at p skip decay k n).
Qed.

(** C6: for every frame k, with stride >= 1 and decay_time >= 0, the
    trace window holds at most decay_time samples and reads no index
    below 0. *)
Theorem trace_window_is_bounded (p : position) (skip decay k : Z) :
  1 <= skip -> 0 <= decay -> 0 <= k ->
  let i := source_index skip k in
  (forall row : list float,
      exists idx,
        slice_indices (len row) (trace_start skip decay i) i skip = Ok idx /\
        Forall (fun j => 0 <= j) idx /\
        len idx <= decay) /\
  (forall fr,
      animate p skip decay k = Ok fr ->
      len (scatter1 fr) <= decay /\ len (scatter2 fr) <= decay) /\
  (forall n,
      rows_of_length p n -> i < n -> exists fr, animate p skip decay k = Ok fr).
Proof.
  intros Hs Hd Hk i.
  assert (H0 : 0 <= i) by (unfold i, source_index; nia).
  split; [| split].
  - intros row. apply trace_indices_bounded; try assumption.
    unfold len. lia.
  - intros fr H. apply animate_inversion in H; [| assumption ..].
    subst fr. unfold frame_at. simpl. rewrite !len_map.
    split; apply window_length_bound; assumption.
  - intros n Hrows Hn. exists (frame_at p skip decay k).
    now apply (animate_frame_at p skip decay k n).
Qed.

End FrameClaims.

(** ** Axis limits and padding *)

Section Limits.


End Limits.

(** ** Powers of two *)

Section PowersOfTwo.

Import SpecFloat.
Local Open Scope R_scope.

Lemma pow2_pos e : 0 < pow2 e.
Proof. apply powerRZ_lt. lra. Qed.

Lemma pow2_add a b : pow2 (a + b) = pow2 a * pow2 b.
Proof. apply powerRZ_add. lra. Qed.

Lemma pow2_0 : pow2 0 = 1.
Proof. reflexivity. Qed.

Lemma pow2_1 : pow2 1 = 2.
Proof. unfold pow2. simpl. lra. Qed.

Lemma pow2_succ e : pow2 (e + 1) = 2 * pow2 e.
Proof. rewrite pow2_add, pow2_1. lra. Qed.

Lemma pow2_pred e : pow2 (e - 1) = pow2 e / 2.
Proof.
  replace e with ((e - 1) + 1)%Z at 2 by lia. rewrite pow2_succ. lra.
Qed.

Lemma pow2_IZR (n : Z) : (0 <= n)%Z -> pow2 n = IZR (2 ^ n).
Proof.
  intros H. unfold pow2. rewrite <- (Z2Nat.id n) at 1 by assumption.
  rewrite <- pow_powerRZ, pow_IZR. now rewrite Z2Nat.id.
Qed.

Lemma pow2_ge_1 n : (0 <= n)%Z -> 1 <= pow2 n.
Proof.
  intros H. rewrite pow2_IZR by assumption. apply IZR_le.
  pose proof (Z.pow_pos_nonneg 2 n). lia.
Qed.

Lemma pow2_le a b : (a <= b)%Z -> pow2 a <= pow2 b.
Proof.
  intros H. replace b with (a + (b - a))%Z by lia. rewrite pow2_add.
  pose proof (pow2_pos a). pose proof (pow2_ge_1 (b - a) ltac:(lia)). nra.
Qed.

Lemma pow2_lt a b : (a < b)%Z -> pow2 a < pow2 b.
Proof.
  intros H. replace b with (a + 1 + (b - a - 1))%Z by lia.
  rewrite pow2_add, pow2_succ.
  pose proof (pow2_pos a). pose proof (pow2_ge_1 (b - a - 1) ltac:(lia)). nra.
Qed.

Lemma pow2_lt_inv a b : pow2 a < pow2 b -> (a < b)%Z.
Proof.
  intros H. destruct (Z_lt_le_dec a b) as [Hlt | Hge]; [assumption |].
  apply pow2_le in Hge. lra.
Qed.

Lemma pow2_neg n : pow2 (- n) = / pow2 n.
Proof. unfold pow2. apply powerRZ_neg'. Qed.

Lemma Rabs_bounds (x y : R) : Rabs x <= y -> - y <= x <= y.
Proof. unfold Rabs. destruct (Rcase_abs x); lra. Qed.

Lemma pow2_m1 : pow2 (-1) = / 2.
Proof. change (-1)%Z with (0 - 1)%Z. rewrite pow2_pred, pow2_0. lra. Qed.

End PowersOfTwo.

(** ** Shifting and rounding a mantissa *)

Section ShiftRecords.

Import SpecFloat.
Local Open Scope R_scope.

Lemma represents_bounds mrs e v :
  represents mrs e v ->
  IZR (shr_m mrs) * pow2 e <= v < (IZR (shr_m mrs) + 1) * pow2 e.
Proof.
  intros [_ H]. pose proof (pow2_pos e).
  destruct (shr_r mrs), (shr_s mrs); simpl in H; nra.
Qed.

Lemma IZR_xO p : IZR (Zpos p~0) = 2 * IZR (Zpos p).
Proof. rewrite Pos2Z.inj_xO, mult_IZR. reflexivity. Qed.

Lemma IZR_xI p : IZR (Zpos p~1) = 2 * IZR (Zpos p) + 1.
Proof. rewrite Pos2Z.inj_xI, plus_IZR, mult_IZR. reflexivity. Qed.

(** One shift to the right keeps the real a record stands for, at the next
    exponent. *)
Lemma shr_1_represents mrs e v :
  represents mrs e v -> represents (shr_1 mrs) (e + 1) v.
Proof.
  destruct mrs as [m r s]. unfold represents. simpl. intros [Hm H].
  rewrite pow2_succ. pose proof (pow2_pos e) as Hu.
  destruct m as [| p | p]; [| | lia].
  - simpl. split; [lia |].
    destruct r, s; simpl in *; lra.
  - destruct p as [p | p |].
    + simpl. split; [lia |].
      destruct r, s; unfold inbetween in *; simpl orb;
        rewrite IZR_xI in H; nra.
    + simpl. split; [lia |].
      destruct r, s; unfold inbetween in *; simpl orb;
        rewrite IZR_xO in H; nra.
    + simpl. split; [lia |].
      destruct r, s; simpl in *; lra.
Qed.

Lemma iter_shr_represents p : forall mrs e v,
  represents mrs e v -> represents (iter_pos shr_1 p mrs) (e + Zpos p) v.
Proof.
  induction p as [p IH | p IH |]; intros mrs e v H; simpl.
  - replace (e + Zpos p~1)%Z with (e + 1 + Zpos p + Zpos p)%Z by lia.
    apply IH, IH, shr_1_represents, H.
  - replace (e + Zpos p~0)%Z with (e + Zpos p + Zpos p)%Z by lia.
    apply IH, IH, H.
  - apply shr_1_represents, H.
Qed.

(** So does [shr], which shifts [n] times and does nothing for [n <= 0]. *)
Lemma shr_represents mrs e n v :
  represents mrs e v ->
  represents (fst (shr mrs e n)) (snd (shr mrs e n)) v /\
  snd (shr mrs e n) = (e + Z.max 0 n)%Z /\
  ((n <= 0)%Z -> fst (shr mrs e n) = mrs).
Proof.
  intros H. destruct n as [| p | p]; simpl.
  - rewrite Z.add_0_r. auto.
  - split; [apply iter_shr_represents, H |]. split; [f_equal; lia | lia].
  - rewrite Z.add_0_r. auto.
Qed.

(** Rounding to nearest, ties to even, moves to one of the two neighbours
    and by at most half a unit; an exact record is left alone. *)
Lemma round_represents mrs e v :
  represents mrs e v ->
  let m' := round_nearest_even (shr_m mrs) (loc_of_shr_record mrs) in
  (shr_m mrs <= m' <= shr_m mrs + 1)%Z /\
  Rabs (IZR m' * pow2 e - v) <= pow2 e / 2 /\
  (shr_r mrs = false -> shr_s mrs = false -> m' = shr_m mrs).
Proof.
  destruct mrs as [m r s]. unfold represents. simpl. intros [Hm H].
  pose proof (pow2_pos e) as Hu.
  destruct r, s; simpl in *.
  - split; [lia |]. split; [| discriminate].
    rewrite plus_IZR. apply Rabs_le. lra.
  - destruct (Z.even m).
    + split; [lia |]. split; [| discriminate]. apply Rabs_le. lra.
    + split; [lia |]. split; [| discriminate].
      rewrite plus_IZR. apply Rabs_le. lra.
  - split; [lia |]. split; [| discriminate]. apply Rabs_le. lra.
  - split; [lia |]. split; [| reflexivity]. apply Rabs_le. lra.
Qed.

Lemma digits2_size p : digits2_pos p = Pos.size p.
Proof. induction p; simpl; congruence. Qed.

(** [Zdigits2] counts the bits of a positive number. *)
Lemma Zdigits2_bounds p :
  (2 ^ (Zdigits2 (Zpos p) - 1) <= Zpos p < 2 ^ Zdigits2 (Zpos p))%Z.
Proof.
  change (Zdigits2 (Zpos p)) with (Zpos (digits2_pos p)).
  rewrite digits2_size.
  pose proof (Pos.size_gt p) as Hgt. pose proof (Pos.size_le p) as Hle.
  apply Pos2Z.pos_le_pos in Hle. apply Pos2Z.pos_lt_pos in Hgt.
  rewrite Pos2Z.inj_pow in Hle, Hgt.
  change (Zpos 2) with 2%Z in *.
  assert (Ex : Zpos p~0 = (2 * Zpos p)%Z) by reflexivity. rewrite Ex in Hle.
  assert (E : (2 ^ Zpos (Pos.size p) = 2 * 2 ^ (Zpos (Pos.size p) - 1))%Z).
  { rewrite <- Z.pow_succ_r by lia. f_equal. lia. }
  lia.
Qed.

Lemma Zdigits2_unique (m k : Z) :
  (0 < k)%Z -> (2 ^ (k - 1) <= m < 2 ^ k)%Z -> Zdigits2 m = k.
Proof.
  intros Hk [Hlo Hhi].
  assert (0 < m)%Z by (pose proof (Z.pow_pos_nonneg 2 (k - 1)); lia).
  destruct m as [| p | p]; try lia.
  pose proof (Zdigits2_bounds p) as [Blo Bhi].
  set (d := Zdigits2 (Zpos p)) in *.
  assert (0 < d)%Z by (unfold d; change (Zdigits2 (Zpos p)) with (Zpos (digits2_pos p)); lia).
  destruct (Z.lt_trichotomy d k) as [Hlt | [Heq | Hgt]]; [| assumption |].
  - assert (2 ^ d <= 2 ^ (k - 1))%Z by (apply Z.pow_le_mono_r; lia). lia.
  - assert (2 ^ k <= 2 ^ (d - 1))%Z by (apply Z.pow_le_mono_r; lia). lia.
Qed.

Lemma Zdigits2_nonneg m : (0 <= Zdigits2 m)%Z.
Proof. destruct m; simpl; lia. Qed.

Lemma Zdigits2_lt (m k : Z) :
  (0 <= k)%Z -> (0 <= m < 2 ^ k)%Z -> (Zdigits2 m <= k)%Z.
Proof.
  intros Hk [H0 Hm]. destruct m as [| p | p]; try lia; [simpl; lia |].
  pose proof (Zdigits2_bounds p) as [Blo _].
  set (d := Zdigits2 (Zpos p)) in *.
  destruct (Z_lt_le_dec k d) as [Hlt | Hge]; [| assumption].
  assert (2 ^ k <= 2 ^ (d - 1))%Z by (apply Z.pow_le_mono_r; lia). lia.
Qed.

End ShiftRecords.

(** ** The error of one rounding *)

Section Rounding.

Import SpecFloat.
Local Open Scope R_scope.

Lemma fexp_64 z : fexp 53 1024 z = fexp64 z.
Proof. reflexivity. Qed.

Lemma Zdigits2_upper m : (0 <= m)%Z -> (m + 1 <= 2 ^ Zdigits2 m)%Z.
Proof.
  intros H. destruct m as [| p | p]; try lia.
  - simpl. lia.
  - pose proof (Zdigits2_bounds p). lia.
Qed.

Lemma IZR_pow2_lt (m k e : Z) (v : R) :
  (0 <= k)%Z -> IZR m * pow2 e <= v -> v < pow2 (e + k) -> (m < 2 ^ k)%Z.
Proof.
  intros Hk Hlo Hhi. rewrite pow2_add in Hhi.
  pose proof (pow2_pos e) as Hu.
  rewrite (pow2_IZR k Hk) in Hhi.
  apply lt_IZR. nra.
Qed.

(** The rounding step shared by all operations of [SpecFloat]: from a
    mantissa, exponent and location that stand for a real [v] below the
    overflow threshold it returns a finite float, of the sign asked for,
    whose magnitude is within [v * 2^-53 + 2^-1075] of [v]. *)
Theorem round_aux_correct (sx : bool) (m e : Z) (l : location) (v : R) :
  (0 <= m)%Z ->
  represents (shr_record_of_loc m l) e v ->
  l = loc_Exact \/ (e <= fexp64 (Zdigits2 m + e))%Z ->
  v < pow2 971 ->
  exists w,
    0 <= w /\
    finite_SF (binary_round_aux 53 1024 sx m e l) /\
    SF2R (binary_round_aux 53 1024 sx m e l) = (if sx then - w else w) /\
    Rabs (w - v) <= v * pow2 (-53) + pow2 (-1075).
Proof.
  intros Hm Hrep Hcond Hv.
  assert (Hm_rec : shr_m (shr_record_of_loc m l) = m)
    by (destruct l as [| []]; reflexivity).
  pose proof (represents_bounds _ _ _ Hrep) as Bv. rewrite Hm_rec in Bv.
  assert (Hv0 : 0 <= v).
  { pose proof (pow2_pos e). assert (0 <= IZR m) by (apply IZR_le; lia). nra. }
  unfold binary_round_aux, shr_fexp. rewrite !fexp_64.
  set (d := Zdigits2 m) in *. set (E := fexp64 (d + e)) in *.
  destruct (shr_represents (shr_record_of_loc m l) e (E - e) v Hrep)
    as (Hrep1 & He1 & Hid1).
  destruct (shr (shr_record_of_loc m l) e (E - e)) as [mrs1 e1].
  simpl in Hrep1, He1, Hid1.
  destruct (round_represents mrs1 e1 v Hrep1) as (Hm2 & Herr & Hexact).
  pose proof (represents_bounds _ _ _ Hrep1) as B1.
  set (m1 := shr_m mrs1) in *.
  set (m2 := round_nearest_even m1 (loc_of_shr_record mrs1)) in *.
  assert (Hm1 : (0 <= m1)%Z) by (destruct Hrep1; assumption).
  assert (HE : (-1074 <= E)%Z) by (unfold E, fexp64; lia).
  (* facts about the rounded mantissa *)
  assert (Facts :
            (m2 <= 2 ^ 53)%Z /\
            (-1074 <= e1)%Z /\
            ((m2 < 2 ^ 53)%Z -> (fexp64 (Zdigits2 m2 + e1) <= e1)%Z) /\
            Rabs (IZR m2 * pow2 e1 - v) <= v * pow2 (-53) + pow2 (-1075)).
  { destruct (Z_lt_le_dec (E - e) 0) as [Hneg | Hpos].
    - (* no shift, exact *)
      destruct Hcond as [-> | Hc]; [| lia].
      assert (He1e : e1 = e) by lia. clear He1. subst e1.
      assert (Hmrs1 : mrs1 = shr_record_of_loc m loc_Exact)
        by (apply Hid1; lia).
      assert (Hm2' : m2 = m).
      { transitivity m1; [apply Hexact; rewrite Hmrs1; reflexivity |].
        unfold m1. rewrite Hmrs1. reflexivity. }
      destruct Hrep as [_ Hval]. simpl in Hval.
      assert (Hd : (d < 53)%Z) by (unfold E, fexp64 in *; lia).
      assert (Hmd : (m + 1 <= 2 ^ d)%Z) by (apply Zdigits2_upper; assumption).
      assert (Hp : (2 ^ d <= 2 ^ 52)%Z)
        by (apply Z.pow_le_mono_r; [lia | unfold d in *; lia]).
      split; [lia |]. split; [unfold E, fexp64 in *; lia |]. split.
      + intros _. rewrite Hm2'. fold d. fold E. lia.
      + rewrite Hm2', Hval.
        replace (IZR m * pow2 e - IZR m * pow2 e) with 0 by ring.
        rewrite Rabs_R0.
        pose proof (pow2_pos (-53)). pose proof (pow2_pos (-1075)).
        pose proof (pow2_pos e). assert (0 <= IZR m) by (apply IZR_le; lia).
        nra.
    - (* shifted to the canonical exponent *)
      assert (He1e : e1 = E) by lia. clear He1. subst e1.
      assert (Hvd : v < pow2 (E + 53)).
      { assert (Hmd : (m + 1 <= 2 ^ d)%Z) by (apply Zdigits2_upper; assumption).
        apply IZR_le in Hmd. rewrite plus_IZR in Hmd.
        assert (Hd0 : (0 <= d)%Z) by apply Zdigits2_nonneg.
        rewrite <- (pow2_IZR d Hd0) in Hmd.
        assert (pow2 (d + e) <= pow2 (E + 53))
          by (apply pow2_le; unfold E, fexp64; lia).
        rewrite pow2_add in H. pose proof (pow2_pos e). nra. }
      assert (Hm1lt : (m1 < 2 ^ 53)%Z)
        by (apply (IZR_pow2_lt m1 53 E v); [lia | lra | exact Hvd]).
      split; [lia |]. split; [lia |]. split.
      + intros Hlt.
        assert (Zdigits2 m2 <= 53)%Z by (apply Zdigits2_lt; lia).
        unfold fexp64. lia.
      + eapply Rle_trans; [exact Herr |].
        destruct (Z.eq_dec E (-1074)) as [HEm | HEn].
        * rewrite HEm. rewrite <- pow2_pred.
          replace (-1074 - 1)%Z with (-1075)%Z by lia.
          pose proof (pow2_pos (-53)). nra.
        * assert (HEd : E = (d + e - 53)%Z) by (unfold E, fexp64 in *; lia).
          assert (Hmpos : (1 <= m)%Z).
          { destruct (Z.eq_dec m 0) as [-> | ]; [| lia].
            unfold d in HEd. simpl in HEd. lia. }
          assert (Hlow : pow2 (E + 52) <= v).
          { destruct m as [| p | p]; try lia.
            pose proof (Zdigits2_bounds p) as [Blo _]. fold d in Blo.
            apply IZR_le in Blo.
            assert (Hd1 : (0 <= d - 1)%Z)
              by (unfold d; change (Zdigits2 (Zpos p)) with (Zpos (digits2_pos p)); lia).
            rewrite <- (pow2_IZR (d - 1) Hd1) in Blo.
            replace (E + 52)%Z with ((d - 1) + e)%Z by lia.
            rewrite pow2_add. pose proof (pow2_pos e). nra. }
          rewrite <- pow2_pred.
          replace (E - 1)%Z with ((E + 52) + (-53))%Z by lia.
          rewrite pow2_add.
          pose proof (pow2_pos (-53)). pose proof (pow2_pos (-1075)). nra. }
  destruct Facts as (Hm2le & He1' & Hfexp & Hbound).
  set (w := IZR m2 * pow2 e1) in *.
  assert (Hw0 : 0 <= w).
  { unfold w. pose proof (pow2_pos e1).
    assert (0 <= IZR m2) by (apply IZR_le; lia). nra. }
  (* the second shift keeps the value *)
  assert (Hrep2 : represents (shr_record_of_loc m2 loc_Exact) e1 w).
  { split; simpl; [lia | reflexivity]. }
  set (n2 := (fexp64 (Zdigits2 m2 + e1) - e1)%Z).
  change (fexp 53 1024 (Zdigits2 m2 + e1) - e1)%Z with n2.
  change (shr_record_of_loc m2 loc_Exact)
    with {| shr_m := m2; shr_r := false; shr_s := false |} in *.
  destruct (shr_represents _ e1 n2 w Hrep2) as (Hrep3 & He3 & Hid3).
  destruct (shr {| shr_m := m2; shr_r := false; shr_s := false |} e1 n2)
    as [mrs3 e3].
  simpl in Hrep3, He3, Hid3.
  assert (Hfinal : 0 <= IZR (shr_m mrs3) /\ IZR (shr_m mrs3) * pow2 e3 = w).
  { destruct (Z_lt_le_dec m2 (2 ^ 53)) as [Hlt | Hge].
    - specialize (Hfexp Hlt).
      rewrite Hid3 by (unfold n2; lia). simpl.
      assert (He3e : e3 = e1) by (unfold n2 in *; lia). clear He3. subst e3.
      split; [apply IZR_le; lia | reflexivity].
    - assert (Heq : m2 = (2 ^ 53)%Z) by lia.
      assert (Hd2 : Zdigits2 m2 = 54%Z)
        by (apply Zdigits2_unique; [lia | rewrite Heq; simpl; lia]).
      assert (Hn2 : n2 = 1%Z) by (unfold n2, fexp64; rewrite Hd2; lia).
      assert (He3e : e3 = (e1 + 1)%Z) by lia. clear He3. subst e3.
      pose proof (represents_bounds _ _ _ Hrep3) as B3.
      destruct Hrep3 as [Hm3 _].
      rewrite pow2_succ in B3. unfold w in B3. rewrite Heq in B3.
      pose proof (pow2_pos e1) as Hu.
      assert (Hlo : (shr_m mrs3 <= 2 ^ 52)%Z).
      { apply le_IZR. change (2 ^ 53)%Z with (2 * 2 ^ 52)%Z in B3.
        rewrite mult_IZR in B3. nra. }
      assert (Hhi : (2 ^ 52 < shr_m mrs3 + 1)%Z).
      { apply lt_IZR. rewrite plus_IZR.
        change (2 ^ 53)%Z with (2 * 2 ^ 52)%Z in B3.
        rewrite mult_IZR in B3. nra. }
      assert (Hm3eq : shr_m mrs3 = (2 ^ 52)%Z) by lia.
      rewrite Hm3eq. split; [apply IZR_le; lia |].
      unfold w. rewrite Heq, pow2_succ.
      change (2 ^ 53)%Z with (2 * 2 ^ 52)%Z. rewrite mult_IZR. ring. }
  destruct Hfinal as [Hm3nn Hval3].
  exists w. split; [exact Hw0 |].
  assert (Hm3 : (0 <= shr_m mrs3)%Z) by (destruct Hrep3; assumption).
  destruct (shr_m mrs3) as [| p3 | p3] eqn:Em3; [| | lia].
  - (* zero *)
    simpl. split; [exact I |]. split; [| exact Hbound].
    rewrite Rmult_0_l in Hval3. rewrite <- Hval3.
    destruct sx; lra.
  - assert (He3le : (e3 <= 971)%Z).
    { assert (Hw : w < pow2 972).
      { apply Rabs_bounds in Hbound.
        pose proof (pow2_le (-53) (-1) ltac:(lia)) as P1.
        pose proof (pow2_le (-1075) 970 ltac:(lia)) as P2.
        rewrite pow2_m1 in P1.
        replace 972%Z with (970 + 1 + 1)%Z by lia.
        replace 971%Z with (970 + 1)%Z in Hv by lia.
        rewrite !pow2_succ. rewrite pow2_succ in Hv.
        pose proof (pow2_pos 970). pose proof (pow2_pos (-53)). nra. }
      assert (pow2 e3 <= w).
      { rewrite <- Hval3. pose proof (pow2_pos e3).
        assert (1 <= IZR (Zpos p3)) by (apply IZR_le; lia). nra. }
      assert (e3 < 972)%Z by (apply pow2_lt_inv; lra). lia. }
    replace (Z.leb e3 (Z.sub 1024 53)) with true
      by (symmetry; apply Z.leb_le; lia).
    simpl. split; [exact I |]. split; [| exact Hbound].
    rewrite <- Hval3. destruct sx; ring.
Qed.

End Rounding.

(** ** Products and quotients *)

Section RoundedProducts.

Import SpecFloat.
Local Open Scope R_scope.

Lemma sign_R_xorb (a b : bool) : sign_R (xorb a b) = sign_R a * sign_R b.
Proof. destruct a, b; unfold sign_R; simpl; lra. Qed.

Lemma Rabs_sign (s : bool) (x : R) : 0 <= x -> Rabs (sign_R s * x) = x.
Proof.
  intros H. unfold sign_R. destruct s.
  - replace (-1 * x) with (- x) by ring. rewrite Rabs_Ropp. apply Rabs_right. lra.
  - rewrite Rmult_1_l. apply Rabs_right. lra.
Qed.

Lemma signed_error (s : bool) (w v e : R) :
  0 <= w -> 0 <= v -> Rabs (w - v) <= e ->
  Rabs ((if s then - w else w) - sign_R s * v) <= e.
Proof.
  intros Hw Hv H. unfold sign_R. destruct s.
  - replace (- w - -1 * v) with (- (w - v)) by ring. now rewrite Rabs_Ropp.
  - now replace (w - 1 * v) with (w - v) by ring.
Qed.

Lemma zero_error (v : R) :
  v = 0 -> Rabs (0 - v) <= Rabs v * pow2 (-53) + pow2 (-1075).
Proof.
  intros ->. rewrite Rminus_0_r, Rabs_R0.
  pose proof (pow2_pos (-1075)). lra.
Qed.

(** A product of finite floats is the exact product, rounded. *)
Theorem SFmul_correct (x y : spec_float) :
  finite_SF x -> finite_SF y ->
  Rabs (SF2R x * SF2R y) < pow2 971 ->
  finite_SF (SFmul 53 1024 x y) /\
  Rabs (SF2R (SFmul 53 1024 x y) - SF2R x * SF2R y)
  <= Rabs (SF2R x * SF2R y) * pow2 (-53) + pow2 (-1075).
Proof.
  intros Hx Hy Hb.
  destruct x as [sx | sx | | sx mx ex]; try contradiction;
    destruct y as [sy | sy | | sy my ey]; try contradiction;
    try (split; [exact I | apply zero_error; simpl; ring]).
  simpl SFmul.
  set (v := IZR (Zpos mx) * pow2 ex * (IZR (Zpos my) * pow2 ey)).
  assert (Hv0 : 0 <= v).
  { unfold v. pose proof (pow2_pos ex). pose proof (pow2_pos ey).
    assert (0 < IZR (Zpos mx)) by (apply IZR_lt; lia).
    assert (0 < IZR (Zpos my)) by (apply IZR_lt; lia).
    apply Rmult_le_pos; apply Rlt_le, Rmult_lt_0_compat; assumption. }
  assert (Eprod : SF2R (S754_finite sx mx ex) * SF2R (S754_finite sy my ey)
                  = sign_R (xorb sx sy) * v).
  { rewrite sign_R_xorb. unfold v, sign_R. simpl. ring. }
  rewrite Eprod in *. rewrite Rabs_sign in * by assumption.
  destruct (round_aux_correct (xorb sx sy) (Zpos (mx * my)) (ex + ey) loc_Exact v)
    as (w & Hw0 & Hfin & Hval & Herr).
  - lia.
  - split; simpl; [lia |]. unfold v. rewrite Pos2Z.inj_mul, mult_IZR, pow2_add. ring.
  - left. reflexivity.
  - exact Hb.
  - split; [exact Hfin |]. rewrite Hval. apply signed_error; assumption.
Qed.

(** The quotient and remainder of the integer division locate the exact
    quotient. *)
Lemma new_location_represents (q m2 r e : Z) :
  (0 <= q)%Z -> (0 <= r < m2)%Z ->
  represents (shr_record_of_loc q (new_location m2 r)) e
             ((IZR q + IZR r / IZR m2) * pow2 e).
Proof.
  intros Hq Hr.
  assert (Hm2 : 0 < IZR m2) by (apply IZR_lt; lia).
  assert (Hr0 : 0 <= IZR r) by (apply IZR_le; lia).
  pose proof (pow2_pos e) as Hu.
  assert (Hm_rec : forall l, shr_m (shr_record_of_loc q l) = q)
    by (intros [| []]; reflexivity).
  split; [rewrite Hm_rec; assumption |].
  assert (Hhalf : forall c, (2 * r ?= m2)%Z = c ->
            match c with
            | Lt => IZR r / IZR m2 < / 2
            | Eq => IZR r / IZR m2 = / 2
            | Gt => / 2 < IZR r / IZR m2
            end).
  { intros c Hc. destruct c.
    - apply Z.compare_eq in Hc. apply (f_equal IZR) in Hc.
      rewrite mult_IZR in Hc. field_simplify_eq; lra.
    - rewrite Z.compare_lt_iff in Hc. apply IZR_lt in Hc.
      rewrite mult_IZR in Hc.
      apply (Rmult_lt_reg_r (IZR m2)); [assumption |].
      unfold Rdiv. rewrite Rmult_assoc, Rinv_l by lra. lra.
    - rewrite Z.compare_gt_iff in Hc. apply IZR_lt in Hc.
      rewrite mult_IZR in Hc.
      apply (Rmult_lt_reg_r (IZR m2)); [assumption |].
      unfold Rdiv. rewrite Rmult_assoc, Rinv_l by lra. lra. }
  assert (Hlt1 : IZR r / IZR m2 < 1).
  { apply (Rmult_lt_reg_r (IZR m2)); [assumption |].
    unfold Rdiv. rewrite Rmult_assoc, Rinv_l by lra.
    assert (IZR r < IZR m2) by (apply IZR_lt; lia). lra. }
  assert (Hpos : (r <> 0)%Z -> 0 < IZR r / IZR m2).
  { intros Hne. apply Rdiv_lt_0_compat; [| assumption].
    apply IZR_lt. lia. }
  unfold new_location.
  destruct (Z.even m2) eqn:Even.
  - unfold new_location_even.
    destruct (Z.eqb_spec r 0) as [-> | Hne].
    + simpl. unfold Rdiv. rewrite Rmult_0_l. ring.
    + specialize (Hpos Hne).
      pose proof (Hhalf _ eq_refl) as Hc.
      change (Zpos 2 * r)%Z with (2 * r)%Z.
      destruct (2 * r ?= m2)%Z; simpl; unfold inbetween; simpl; nra.
  - unfold new_location_odd.
    destruct (Z.eqb_spec r 0) as [-> | Hne].
    + simpl. unfold Rdiv. rewrite Rmult_0_l. ring.
    + specialize (Hpos Hne).
      assert (Hodd : exists k, m2 = (2 * k + 1)%Z).
      { apply Z.odd_spec. rewrite <- Z.negb_even, Even. reflexivity. }
      destruct Hodd as [k Hk].
      change (Zpos 2 * r + Zpos 1)%Z with (2 * r + 1)%Z.
      destruct (2 * r + 1 ?= m2)%Z eqn:Hc.
      * apply Z.compare_eq in Hc.
        assert (H2 : (2 * r ?= m2)%Z = Lt) by (apply Z.compare_lt_iff; lia).
        apply Hhalf in H2. simpl. nra.
      * rewrite Z.compare_lt_iff in Hc.
        assert (H2 : (2 * r ?= m2)%Z = Lt) by (apply Z.compare_lt_iff; lia).
        apply Hhalf in H2. simpl. nra.
      * rewrite Z.compare_gt_iff in Hc.
        assert (H2 : (2 * r ?= m2)%Z = Gt) by (apply Z.compare_gt_iff; lia).
        apply Hhalf in H2. simpl. nra.
Qed.

Lemma shift_cases (m s : Z) :
  (0 <= s)%Z ->
  match s with
  | Zpos _ => Z.shiftl m s
  | Z0 => m
  | Zneg _ => 0%Z
  end = (m * 2 ^ s)%Z.
Proof.
  intros Hs. destruct s as [| p | p]; try lia.
  apply Z.shiftl_mul_pow2. lia.
Qed.

Lemma div_core_represents (mx my : positive) (ex ey : Z) :
  exists q e' l,
    SFdiv_core_binary 53 1024 (Zpos mx) ex (Zpos my) ey = (q, e', l) /\
    (0 <= q)%Z /\
    represents (shr_record_of_loc q l) e'
               (IZR (Zpos mx) * pow2 ex / (IZR (Zpos my) * pow2 ey)) /\
    (e' <= fexp64 (Zdigits2 q + e'))%Z.
Proof.
  unfold SFdiv_core_binary. rewrite fexp_64.
  set (d1 := Zdigits2 (Zpos mx)). set (d2 := Zdigits2 (Zpos my)).
  set (e' := Z.min (fexp64 (d1 + ex - (d2 + ey))) (ex - ey)).
  set (s := (ex - ey - e')%Z).
  assert (Hs : (0 <= s)%Z) by (unfold s, e'; lia).
  set (m' := match s with
             | Zpos _ => Z.shiftl (Zpos mx) s
             | Z0 => Zpos mx
             | Zneg _ => 0%Z
             end).
  assert (Hm' : m' = (Zpos mx * 2 ^ s)%Z) by (apply shift_cases; exact Hs).
  pose proof (Z_div_mod m' (Zpos my) ltac:(lia)) as Hdiv.
  destruct (Z.div_eucl m' (Zpos my)) as [q r]. destruct Hdiv as [Hqr Hr].
  assert (Hpow : (0 < 2 ^ s)%Z) by (apply Z.pow_pos_nonneg; lia).
  assert (Hq : (0 <= q)%Z) by nia.
  exists q, e', (new_location (Zpos my) r).
  split; [reflexivity |]. split; [exact Hq |]. split.
  - replace (IZR (Zpos mx) * pow2 ex / (IZR (Zpos my) * pow2 ey))
      with ((IZR q + IZR r / IZR (Zpos my)) * pow2 e').
    + apply new_location_represents; assumption.
    + assert (Hmy : 0 < IZR (Zpos my)) by (apply IZR_lt; lia).
      pose proof (pow2_pos ey). pose proof (pow2_pos e').
      assert (Eex : pow2 ex = pow2 s * pow2 e' * pow2 ey).
      { rewrite <- !pow2_add. f_equal. unfold s. lia. }
      assert (Em : IZR (Zpos mx) * pow2 s = IZR (Zpos my) * IZR q + IZR r).
      { rewrite (pow2_IZR s Hs), <- mult_IZR, <- Hm', Hqr.
        now rewrite plus_IZR, mult_IZR. }
      assert (Eq : IZR q + IZR r / IZR (Zpos my)
                   = IZR (Zpos mx) * pow2 s / IZR (Zpos my))
        by (rewrite Em; field; lra).
      rewrite Eq, Eex. field. lra.
  - destruct (Z_le_gt_dec e' (-1074)) as [Hsub | Hnorm].
    + unfold fexp64. lia.
    + assert (Hs53 : (53 + d2 - d1 <= s)%Z) by (unfold s, e', fexp64 in *; lia).
      pose proof (Zdigits2_bounds mx) as [B1 _]. fold d1 in B1.
      pose proof (Zdigits2_bounds my) as [_ B2]. fold d2 in B2.
      assert (Hd1 : (1 <= d1)%Z)
        by (unfold d1; change (Zdigits2 (Zpos mx)) with (Zpos (digits2_pos mx)); lia).
      assert (Hd2 : (1 <= d2)%Z)
        by (unfold d2; change (Zdigits2 (Zpos my)) with (Zpos (digits2_pos my)); lia).
      assert (Hbig : (2 ^ (52 + d2) <= m')%Z).
      { rewrite Hm'.
        assert (2 ^ (52 + d2) <= 2 ^ (d1 - 1 + s))%Z
          by (apply Z.pow_le_mono_r; lia).
        rewrite (Z.pow_add_r 2 (d1 - 1) s) in H by lia.
        apply Z.le_trans with (1 := H).
        apply Z.mul_le_mono_nonneg_r; [lia | exact B1]. }
      assert (Hq52 : (2 ^ 52 <= q)%Z).
      { rewrite Z.pow_add_r, Z.mul_comm in Hbig by lia.
        assert (H52 : (0 < 2 ^ 52)%Z) by (apply Z.pow_pos_nonneg; lia).
        assert (Hlt : (Zpos my * 2 ^ 52 < 2 ^ d2 * 2 ^ 52)%Z)
          by (apply Z.mul_lt_mono_pos_r; [exact H52 | exact B2]).
        assert (Hlt' : (Zpos my * 2 ^ 52 < Zpos my * (q + 1))%Z) by lia.
        apply Z.mul_lt_mono_pos_l in Hlt'; lia. }
      assert (Hdq : (53 <= Zdigits2 q)%Z).
      { destruct q as [| pq | pq]; try lia.
        pose proof (Zdigits2_bounds pq) as [_ Bq].
        destruct (Z_lt_le_dec (Zdigits2 (Zpos pq)) 53) as [Hlt | Hge]; [| lia].
        assert (2 ^ Zdigits2 (Zpos pq) <= 2 ^ 52)%Z
          by (apply Z.pow_le_mono_r; lia).
        lia. }
      unfold fexp64. lia.
Qed.

(** A quotient of a finite float by a nonzero finite float is the exact
    quotient, rounded. *)
Theorem SFdiv_correct (x y : spec_float) :
  finite_SF x -> (exists sy my ey, y = S754_finite sy my ey) ->
  Rabs (SF2R x / SF2R y) < pow2 971 ->
  finite_SF (SFdiv 53 1024 x y) /\
  Rabs (SF2R (SFdiv 53 1024 x y) - SF2R x / SF2R y)
  <= Rabs (SF2R x / SF2R y) * pow2 (-53) + pow2 (-1075).
Proof.
  intros Hx (sy & my & ey & ->) Hb.
  destruct x as [sx | sx | | sx mx ex]; try contradiction.
  - split; [exact I |]. apply zero_error. simpl. unfold Rdiv. ring.
  - simpl SFdiv.
    destruct (div_core_represents mx my ex ey)
      as (q & e' & l & Ecore & Hq & Hrep & Hcan).
    rewrite Ecore.
    set (v := IZR (Zpos mx) * pow2 ex / (IZR (Zpos my) * pow2 ey)) in *.
    assert (Hmy : 0 < IZR (Zpos my) * pow2 ey).
    { pose proof (pow2_pos ey).
      assert (0 < IZR (Zpos my)) by (apply IZR_lt; lia).
      apply Rmult_lt_0_compat; assumption. }
    assert (Hv0 : 0 <= v).
    { unfold v. apply Rlt_le, Rdiv_lt_0_compat; [| assumption].
      pose proof (pow2_pos ex).
      assert (0 < IZR (Zpos mx)) by (apply IZR_lt; lia).
      apply Rmult_lt_0_compat; assumption. }
    assert (Equot : SF2R (S754_finite sx mx ex) / SF2R (S754_finite sy my ey)
                    = sign_R (xorb sx sy) * v).
    { rewrite sign_R_xorb. unfold v, sign_R. simpl.
      pose proof (pow2_pos ey).
      assert (0 < IZR (Zpos my)) by (apply IZR_lt; lia).
      destruct sx, sy; field; repeat split; lra. }
    rewrite Equot in *. rewrite Rabs_sign in * by assumption.
    destruct (round_aux_correct (xorb sx sy) q e' l v)
      as (w & Hw0 & Hfin & Hval & Herr); auto.
    split; [exact Hfin |]. rewrite Hval. apply signed_error; assumption.
Qed.

End RoundedProducts.

(** ** Differences and comparisons *)

Section RoundedDifferences.

Import SpecFloat.
Local Open Scope R_scope.

Lemma iter_xO_value (d m : positive) :
  IZR (Zpos (Pos.iter xO m d)) = IZR (Zpos m) * pow2 (Zpos d).
Proof.
  rewrite (pow2_IZR (Zpos d)) by lia. rewrite <- mult_IZR. f_equal.
  change (Pos.iter xO m d) with (Zpower.shift_pos d m).
  rewrite Zpower.shift_pos_correct, Zpower.Zpower_pos_nat.
  rewrite Zpower.Zpower_nat_Z, positive_nat_Z. lia.
Qed.

Lemma shl_align_value (mx : positive) (ex ex' : Z) :
  IZR (Zpos (fst (shl_align mx ex ex'))) * pow2 (snd (shl_align mx ex ex'))
  = IZR (Zpos mx) * pow2 ex.
Proof.
  unfold shl_align. destruct (ex' - ex)%Z as [| d | d] eqn:E; simpl; try reflexivity.
  rewrite iter_xO_value. replace ex with (Zpos d + ex')%Z by lia.
  rewrite pow2_add. ring.
Qed.

Lemma shl_align_exponent (mx : positive) (ex ex' : Z) :
  (ex' <= ex)%Z -> snd (shl_align mx ex ex') = ex'.
Proof.
  intros H. unfold shl_align.
  destruct (ex' - ex)%Z as [| d | d] eqn:E; simpl; lia.
Qed.

Lemma binary_round_correct (sx : bool) (mx : positive) (ex : Z) :
  IZR (Zpos mx) * pow2 ex < pow2 971 ->
  exists w, 0 <= w /\
    finite_SF (binary_round 53 1024 sx mx ex) /\
    SF2R (binary_round 53 1024 sx mx ex) = (if sx then - w else w) /\
    Rabs (w - IZR (Zpos mx) * pow2 ex)
    <= IZR (Zpos mx) * pow2 ex * pow2 (-53) + pow2 (-1075).
Proof.
  intros Hb. unfold binary_round.
  pose proof (shl_align_value mx ex (fexp 53 1024 (Zpos (digits2_pos mx) + ex))) as Hv.
  destruct (shl_align mx ex (fexp 53 1024 (Zpos (digits2_pos mx) + ex))) as [mz ez].
  simpl in Hv. rewrite <- Hv in *.
  apply round_aux_correct.
  - lia.
  - split; simpl; [lia | reflexivity].
  - left. reflexivity.
  - exact Hb.
Qed.

Lemma cond_Zopp_value (s : bool) (m : positive) (e : Z) :
  IZR (cond_Zopp s (Zpos m)) * pow2 e = SF2R (S754_finite s m e).
Proof.
  destruct s; simpl;
    [change (IZR (Zneg m)) with (IZR (- Zpos m)); rewrite opp_IZR |]; ring.
Qed.

Lemma binary_normalize_correct (m e : Z) :
  Rabs (IZR m * pow2 e) < pow2 971 ->
  finite_SF (binary_normalize 53 1024 m e false) /\
  Rabs (SF2R (binary_normalize 53 1024 m e false) - IZR m * pow2 e)
  <= Rabs (IZR m * pow2 e) * pow2 (-53) + pow2 (-1075).
Proof.
  intros Hb. pose proof (pow2_pos e) as Hu.
  destruct m as [| p | p]; simpl binary_normalize.
  - split; [exact I |]. apply zero_error. ring.
  - assert (Hp : 0 < IZR (Zpos p)) by (apply IZR_lt; lia).
    assert (Hv : 0 <= IZR (Zpos p) * pow2 e) by (apply Rlt_le, Rmult_lt_0_compat; assumption).
    rewrite (Rabs_right (IZR (Zpos p) * pow2 e)) in * by lra.
    destruct (binary_round_correct false p e Hb) as (w & Hw & Hfin & Hval & Herr).
    split; [exact Hfin |]. rewrite Hval. exact Herr.
  - assert (Hp : 0 < IZR (Zpos p)) by (apply IZR_lt; lia).
    assert (Hv : 0 <= IZR (Zpos p) * pow2 e) by (apply Rlt_le, Rmult_lt_0_compat; assumption).
    assert (En : IZR (Zneg p) * pow2 e = - (IZR (Zpos p) * pow2 e)).
    { change (Zneg p) with (- Zpos p)%Z. rewrite opp_IZR. ring. }
    rewrite En in *. rewrite Rabs_Ropp in *.
    rewrite (Rabs_right (IZR (Zpos p) * pow2 e)) in * by lra.
    destruct (binary_round_correct true p e Hb) as (w & Hw & Hfin & Hval & Herr).
    split; [exact Hfin |]. rewrite Hval.
    replace (- w - - (IZR (Zpos p) * pow2 e)) with (- (w - IZR (Zpos p) * pow2 e)) by ring.
    rewrite Rabs_Ropp. exact Herr.
Qed.

(** A difference of finite floats is the exact difference, rounded. *)
Theorem SFsub_correct (x y : spec_float) :
  finite_SF x -> finite_SF y ->
  Rabs (SF2R x - SF2R y) < pow2 971 ->
  finite_SF (SFsub 53 1024 x y) /\
  Rabs (SF2R (SFsub 53 1024 x y) - (SF2R x - SF2R y))
  <= Rabs (SF2R x - SF2R y) * pow2 (-53) + pow2 (-1075).
Proof.
  intros Hx Hy Hb.
  assert (Hexact : forall z : spec_float, finite_SF z -> SF2R z = SF2R x - SF2R y ->
            finite_SF z /\
            Rabs (SF2R z - (SF2R x - SF2R y))
            <= Rabs (SF2R x - SF2R y) * pow2 (-53) + pow2 (-1075)).
  { intros z Hz ->. split; [exact Hz |].
    replace (SF2R x - SF2R y - (SF2R x - SF2R y)) with 0 by ring.
    rewrite Rabs_R0. pose proof (pow2_pos (-1075)). pose proof (pow2_pos (-53)).
    pose proof (Rabs_pos (SF2R x - SF2R y)). nra. }
  destruct x as [sx | sx | | sx mx ex]; try contradiction;
    destruct y as [sy | sy | | sy my ey]; try contradiction.
  - apply Hexact; destruct sx, sy; simpl; try exact I; ring.
  - apply Hexact; [exact I |]. simpl. destruct sy; simpl; ring.
  - apply Hexact; [exact I |]. simpl. ring.
  - simpl SFsub.
    set (ez := Z.min ex ey).
    pose proof (shl_align_value mx ex ez) as Vx.
    pose proof (shl_align_value my ey ez) as Vy.
    rewrite shl_align_exponent in Vx by (unfold ez; lia).
    rewrite shl_align_exponent in Vy by (unfold ez; lia).
    set (ax := fst (shl_align mx ex ez)) in *.
    set (ay := fst (shl_align my ey ez)) in *.
    assert (E : IZR (cond_Zopp sx (Zpos ax) - cond_Zopp sy (Zpos ay)) * pow2 ez
                = SF2R (S754_finite sx mx ex) - SF2R (S754_finite sy my ey)).
    { rewrite minus_IZR, Rmult_minus_distr_r, !cond_Zopp_value.
      simpl. rewrite !Rmult_assoc, Vx, Vy. reflexivity. }
    rewrite <- E in *. apply binary_normalize_correct. exact Hb.
Qed.

Lemma valid_canonical (s : bool) (m : positive) (e : Z) :
  valid_binary 53 1024 (S754_finite s m e) = true -> canonical m e.
Proof.
  simpl. unfold bounded, canonical_mantissa. intros H.
  apply andb_true_iff in H. destruct H as [H _].
  apply Z.eqb_eq in H. rewrite fexp_64 in H. exact H.
Qed.

(** Among canonical floats the one of smaller exponent is the smaller. *)
Lemma canonical_lt (m1 m2 : positive) (e1 e2 : Z) :
  canonical m1 e1 -> canonical m2 e2 -> (e1 < e2)%Z ->
  IZR (Zpos m1) * pow2 e1 < IZR (Zpos m2) * pow2 e2.
Proof.
  unfold canonical, fexp64. intros C1 C2 Hlt.
  pose proof (Zdigits2_bounds m1) as [_ U1].
  pose proof (Zdigits2_bounds m2) as [L2 _].
  set (d1 := Zdigits2 (Zpos m1)) in *. set (d2 := Zdigits2 (Zpos m2)) in *.
  assert (Hd1' : (0 <= d1)%Z) by (unfold d1; apply Zdigits2_nonneg).
  clearbody d1 d2.
  assert (Hd2 : d2 = 53%Z) by (clear U1 L2; lia).
  assert (Hd1 : (d1 <= 53)%Z) by (clear U1 L2; lia).
  rewrite Hd2 in L2.
  apply IZR_lt in U1. apply IZR_le in L2.
  rewrite <- pow2_IZR in U1 by lia. rewrite <- pow2_IZR in L2 by lia.
  pose proof (pow2_pos e1). pose proof (pow2_pos e2).
  apply Rlt_le_trans with (pow2 d1 * pow2 e1).
  - apply Rmult_lt_compat_r; assumption.
  - apply Rle_trans with (pow2 (53 - 1) * pow2 e2).
    + rewrite <- !pow2_add. apply pow2_le. lia.
    + apply Rmult_le_compat_r; lra.
Qed.

(** [SFcompare] on positive canonical floats compares their real values. *)
Lemma compare_canonical (m1 m2 : positive) (e1 e2 : Z) :
  canonical m1 e1 -> canonical m2 e2 ->
  match SFcompare (S754_finite false m1 e1) (S754_finite false m2 e2) with
  | Some Lt => IZR (Zpos m1) * pow2 e1 < IZR (Zpos m2) * pow2 e2
  | Some Eq => IZR (Zpos m1) * pow2 e1 = IZR (Zpos m2) * pow2 e2
  | Some Gt => IZR (Zpos m2) * pow2 e2 < IZR (Zpos m1) * pow2 e1
  | None => False
  end.
Proof.
  intros C1 C2. simpl.
  destruct (e1 ?= e2)%Z eqn:E.
  - apply Z.compare_eq in E. subst e2. pose proof (pow2_pos e1).
    change (Pos.compare_cont Eq m1 m2) with (m1 ?= m2)%positive.
    destruct (m1 ?= m2)%positive eqn:M.
    + apply Pos.compare_eq in M. now subst.
    + change (m1 < m2)%positive in M. apply Rmult_lt_compat_r; [assumption |].
      apply IZR_lt. lia.
    + rewrite Pos.compare_gt_iff in M. apply Rmult_lt_compat_r; [assumption |].
      apply IZR_lt. lia.
  - apply Z.compare_lt_iff in E. now apply canonical_lt.
  - apply Z.compare_gt_iff in E. now apply canonical_lt.
Qed.

Lemma SFleb_abs_bound (x : spec_float) (mc : positive) (ec : Z) :
  valid_binary 53 1024 x = true -> canonical mc ec ->
  SFleb (SFabs x) (S754_finite false mc ec) = true ->
  finite_SF x /\ Rabs (SF2R x) <= IZR (Zpos mc) * pow2 ec.
Proof.
  intros Vx Cc H. unfold SFleb in H.
  assert (Hc : 0 < IZR (Zpos mc) * pow2 ec).
  { apply Rmult_lt_0_compat; [apply IZR_lt; lia | apply pow2_pos]. }
  destruct x as [sx | sx | | sx mx ex]; simpl in H; try discriminate.
  - split; [exact I |]. simpl. rewrite Rabs_R0. lra.
  - split; [exact I |].
    pose proof (compare_canonical mx mc ex ec (valid_canonical _ _ _ Vx) Cc) as Hcmp.
    simpl in Hcmp.
    assert (Hval : Rabs (SF2R (S754_finite sx mx ex)) = IZR (Zpos mx) * pow2 ex).
    { change (SF2R (S754_finite sx mx ex))
        with (sign_R sx * IZR (Zpos mx) * pow2 ex).
      rewrite Rmult_assoc. apply Rabs_sign.
      apply Rlt_le, Rmult_lt_0_compat; [apply IZR_lt; lia | apply pow2_pos]. }
    rewrite Hval.
    destruct (ex ?= ec)%Z; [destruct (Pos.compare_cont Eq mx mc) | |];
      try discriminate; lra.
Qed.

Lemma SFltb_abs_true (x : spec_float) (mc : positive) (ec : Z) :
  valid_binary 53 1024 x = true -> canonical mc ec ->
  finite_SF x -> Rabs (SF2R x) < IZR (Zpos mc) * pow2 ec ->
  SFltb (SFabs x) (S754_finite false mc ec) = true.
Proof.
  intros Vx Cc Hfin H. unfold SFltb.
  destruct x as [sx | sx | | sx mx ex]; try contradiction.
  - reflexivity.
  - pose proof (compare_canonical mx mc ex ec (valid_canonical _ _ _ Vx) Cc) as Hcmp.
    assert (Hval : Rabs (SF2R (S754_finite sx mx ex)) = IZR (Zpos mx) * pow2 ex).
    { change (SF2R (S754_finite sx mx ex))
        with (sign_R sx * IZR (Zpos mx) * pow2 ex).
      rewrite Rmult_assoc. apply Rabs_sign.
      apply Rlt_le, Rmult_lt_0_compat; [apply IZR_lt; lia | apply pow2_pos]. }
    rewrite Hval in H.
    change (SFabs (S754_finite sx mx ex)) with (S754_finite false mx ex).
    destruct (SFcompare (S754_finite false mx ex) (S754_finite false mc ec))
      as [[ | | ] |]; try reflexivity; try contradiction; lra.
Qed.

End RoundedDifferences.

(** ** The angle conversions *)

Section Angles.

Import SpecFloat.
Local Open Scope R_scope.

Lemma pow2_inverse (p : positive) (k : R) :
  IZR (2 ^ Zpos p) = k -> pow2 (Zneg p) = / k.
Proof.
  intros <-. change (Zneg p) with (- Zpos p)%Z.
  rewrite pow2_neg, pow2_IZR by lia. reflexivity.
Qed.

Lemma unit_roundoff_pow2 : pow2 (-53) = unit_roundoff.
Proof. apply (pow2_inverse 53). reflexivity. Qed.

Lemma tiny_pow2 : pow2 (-1075) <= tiny.
Proof.
  apply Rle_trans with (pow2 (-64)); [apply pow2_le; lia |].
  apply Req_le. apply (pow2_inverse 64). reflexivity.
Qed.

Lemma below_overflow (v : R) : Rabs v <= 1073741824 -> Rabs v < pow2 971.
Proof.
  intros H. apply Rle_lt_trans with (1 := H).
  apply Rle_lt_trans with (pow2 30).
  - rewrite (pow2_IZR 30) by lia. apply Rle_refl.
  - apply pow2_lt. lia.
Qed.

(** The error of one rounded operation whose exact result [v] is at most
    [M] in magnitude. *)
Lemma rounding_interval (w v M : R) :
  Rabs v <= M ->
  Rabs (w - v) <= Rabs v * pow2 (-53) + pow2 (-1075) ->
  - (M * unit_roundoff + tiny) <= w - v <= M * unit_roundoff + tiny.
Proof.
  intros HM H. apply Rabs_bounds.
  apply Rle_trans with (1 := H).
  rewrite unit_roundoff_pow2. pose proof tiny_pow2.
  assert (0 < unit_roundoff) by (unfold unit_roundoff; lra).
  nra.
Qed.

(** The same for the primitive operations, as intervals around the exact
    results. *)
Lemma mul_interval (x y : float) (M : R) :
  finite_float x -> finite_float y ->
  Rabs (F2R x * F2R y) <= M -> M <= 1073741824 ->
  finite_float (x * y) /\
  - (M * unit_roundoff + tiny) <= F2R (x * y) - F2R x * F2R y
    <= M * unit_roundoff + tiny.
Proof.
  intros Hx Hy HM Hbig. unfold finite_float, F2R in *.
  rewrite FloatAxioms.mul_spec.
  destruct (SFmul_correct _ _ Hx Hy) as [Hfin Herr].
  - apply below_overflow. lra.
  - split; [exact Hfin |]. now apply rounding_interval.
Qed.

Lemma div_interval (x y : float) (M : R) :
  finite_float x ->
  (exists s m e, FloatOps.Prim2SF y = SpecFloat.S754_finite s m e) ->
  Rabs (F2R x / F2R y) <= M -> M <= 1073741824 ->
  finite_float (x / y) /\
  - (M * unit_roundoff + tiny) <= F2R (x / y) - F2R x / F2R y
    <= M * unit_roundoff + tiny.
Proof.
  intros Hx Hy HM Hbig. unfold finite_float, F2R in *.
  rewrite FloatAxioms.div_spec.
  destruct (SFdiv_correct _ _ Hx Hy) as [Hfin Herr].
  - apply below_overflow. lra.
  - split; [exact Hfin |]. now apply rounding_interval.
Qed.

Lemma sub_interval (x y : float) (M : R) :
  finite_float x -> finite_float y ->
  Rabs (F2R x - F2R y) <= M -> M <= 1073741824 ->
  finite_float (x - y) /\
  - (M * unit_roundoff + tiny) <= F2R (x - y) - (F2R x - F2R y)
    <= M * unit_roundoff + tiny.
Proof.
  intros Hx Hy HM Hbig. unfold finite_float, F2R in *.
  rewrite FloatAxioms.sub_spec.
  destruct (SFsub_correct _ _ Hx Hy) as [Hfin Herr].
  - apply below_overflow. lra.
  - split; [exact Hfin |]. now apply rounding_interval.
Qed.

(** The real values of the constants of the conversions. *)
Lemma F2R_pi : F2R Np.pi = 7074237752028440 / 2251799813685248.
Proof.
  unfold F2R.
  change (FloatOps.Prim2SF Np.pi)
    with (SpecFloat.S754_finite false 7074237752028440 (-51)).
  cbn [SF2R]. rewrite (pow2_inverse 51 2251799813685248 eq_refl).
  unfold Rdiv. ring.
Qed.

Lemma F2R_180 : F2R 180 = 180.
Proof.
  unfold F2R.
  change (FloatOps.Prim2SF 180)
    with (SpecFloat.S754_finite false 6333186975989760 (-45)).
  cbn [SF2R]. rewrite (pow2_inverse 45 35184372088832 eq_refl).
  field.
Qed.

(** The tests [abs x <=? c] and [abs x <? c] on real values. *)
Lemma abs_le_interval (x c : float) (mc : positive) (ec : Z) :
  FloatOps.Prim2SF c = SpecFloat.S754_finite false mc ec ->
  (abs x <=? c)%float = true ->
  finite_float x /\ - (IZR (Zpos mc) * pow2 ec) <= F2R x <= IZR (Zpos mc) * pow2 ec.
Proof.
  intros Ec H. rewrite FloatAxioms.leb_spec, FloatAxioms.abs_spec, Ec in H.
  pose proof (FloatAxioms.Prim2SF_valid c) as Vc. rewrite Ec in Vc.
  destruct (SFleb_abs_bound _ mc ec (FloatAxioms.Prim2SF_valid x)
              (valid_canonical _ _ _ Vc) H) as [Hfin Hb].
  split; [exact Hfin |]. apply Rabs_bounds. exact Hb.
Qed.

Lemma abs_lt_from_interval (x c : float) (mc : positive) (ec : Z) :
  FloatOps.Prim2SF c = SpecFloat.S754_finite false mc ec ->
  finite_float x ->
  - (IZR (Zpos mc) * pow2 ec) < F2R x < IZR (Zpos mc) * pow2 ec ->
  (abs x <? c)%float = true.
Proof.
  intros Ec Hfin Hb. rewrite FloatAxioms.ltb_spec, FloatAxioms.abs_spec, Ec.
  pose proof (FloatAxioms.Prim2SF_valid c) as Vc. rewrite Ec in Vc.
  apply SFltb_abs_true.
  - apply FloatAxioms.Prim2SF_valid.
  - exact (valid_canonical _ _ _ Vc).
  - exact Hfin.
  - apply Rabs_def1; tauto.
Qed.

(** C7, amended: for every float x with |x| <= 2^21 = 2097152,
    |rad_to_deg(deg_to_rad(x)) - x| < 1e-9.  Each of the four roundings
    of the two conversions is off by at most 2^-53 of its exact result,
    which adds up to less than 4 * 2^21 * 2^-53 = 2^-30 < 1e-9. *)
Theorem roundtrip_within_tolerance_below_2p21 (x : float) :
  (abs x <=? 0x1p21)%float = true ->
  roundtrip_within_tolerance x = true.
Proof.
  intros Hx.
  destruct (abs_le_interval x 0x1p21%float 4503599627370496 (-31) eq_refl Hx)
    as [Fx Bx].
  rewrite (pow2_inverse 31 2147483648 eq_refl) in Bx.
  assert (Fpi : finite_float Np.pi) by exact I.
  assert (F180 : finite_float 180) by exact I.
  assert (Npi : exists s m e, FloatOps.Prim2SF Np.pi = SpecFloat.S754_finite s m e)
    by (do 3 eexists; reflexivity).
  assert (N180 : exists s m e, FloatOps.Prim2SF 180 = SpecFloat.S754_finite s m e)
    by (do 3 eexists; reflexivity).
  pose proof F2R_pi as Epi. pose proof F2R_180 as E180.
  unfold roundtrip_within_tolerance, within_tolerance, rad_to_deg, deg_to_rad.
  set (X := F2R x) in *.
  (* x * pi *)
  destruct (mul_interval x Np.pi 6600000 Fx Fpi) as [F1 B1].
  { rewrite Epi. fold X. apply Rabs_le. lra. }
  { lra. }
  rewrite Epi in B1. fold X in B1.
  set (y1 := (x * Np.pi)%float) in *. set (Y1 := F2R y1) in *.
  (* / 180 *)
  destruct (div_interval y1 180 36700 F1 N180) as [F2 B2].
  { rewrite E180. fold Y1. apply Rabs_le. unfold unit_roundoff, tiny in *. lra. }
  { lra. }
  rewrite E180 in B2. fold Y1 in B2.
  set (y2 := (y1 / 180)%float) in *. set (Y2 := F2R y2) in *.
  (* * 180 *)
  destruct (mul_interval y2 180 6600000 F2 F180) as [F3 B3].
  { rewrite E180. fold Y2. apply Rabs_le. unfold unit_roundoff, tiny in *. lra. }
  { lra. }
  rewrite E180 in B3. fold Y2 in B3.
  set (y3 := (y2 * 180)%float) in *. set (Y3 := F2R y3) in *.
  (* / pi *)
  destruct (div_interval y3 Np.pi 2100000 F3 Npi) as [F4 B4].
  { rewrite Epi. fold Y3. apply Rabs_le. unfold unit_roundoff, tiny in *. lra. }
  { lra. }
  rewrite Epi in B4. fold Y3 in B4.
  set (y4 := (y3 / Np.pi)%float) in *. set (Y4 := F2R y4) in *.
  (* - x *)
  destruct (sub_interval y4 x (/ 1000000) F4 Fx) as [F5 B5].
  { fold Y4 X. apply Rabs_le. unfold unit_roundoff, tiny in *. lra. }
  { lra. }
  fold Y4 X in B5.
  apply (abs_lt_from_interval (y4 - x) 0x1.12e0be826d695p-30 4835703278458517 (-82)
           eq_refl F5).
  rewrite (pow2_inverse 82 4835703278458516698824704 eq_refl).
  unfold unit_roundoff, tiny in *. lra.
Qed.

End Angles.

(** ** show_animation *)

Section Display.

Lemma append_cancel_l (s a b : string) :
  (s ++ a)%string = (s ++ b)%string -> a = b.
Proof.
  induction s as [| c s IH]; simpl; intros H; [exact H |].
  injection H as H. apply IH, H.
Qed.

Lemma append_cancel_last (c : ascii) (a b : string) :
  (a ++ String c EmptyString)%string = (b ++ String c EmptyString)%string ->
  a = b.
Proof.
  revert b. induction a as [| x a IH]; intros [| y b]; simpl; intros H.
  - reflexivity.
  - injection H as _ H. destruct b; discriminate.
  - injection H as _ H. destruct a; discriminate.
  - injection H as -> H. f_equal. apply IH, H.
Qed.

(** C10: for every path, [show_animation] returns an HTML object, not
    [None]; its markup is an img tag whose src is the given path, and
    the path can be read back from it. *)
Theorem show_animation_returns_html (animation_path : string) :
  show_animation animation_path <> PyNone /\
  (exists markup,
      show_animation animation_path = HTML markup /\
      prefix "<img " markup = true /\
      markup = ("<img alt=" ++ dquote ++ "spring double pendulum animation"
                ++ dquote ++ " src=" ++ animation_path ++ ">")%string) /\
  (forall other,
      show_animation animation_path = show_animation other ->
      animation_path = other).
Proof.
  split; [discriminate |]. split.
  - eexists. split; [reflexivity |]. split; reflexivity.
  - intros other H. unfold show_animation in H. injection H as H.
    repeat apply append_cancel_l in H.
    now apply append_cancel_last in H.
Qed.

End Display.

(** ** The claims on concrete calls *)

Section ConcreteCalls.

Lemma rows_call_100 : rows_of_length (pos call_100) (len (t call_100)).
Proof. repeat split; reflexivity. Defined.

Lemma rows_call_6 : rows_of_length (pos call_6) (len (t call_6)).
Proof. repeat split; reflexivity. Defined.

(** C1 as stated fails on the scenario N = 100, fps = 50, n_seconds =
    20: 1000 frames are requested from 100 samples, and the call is not
    turned down before rendering; it raises inside the first frame. *)
Lemma no_rejection_for_100_samples :
  len (t call_100) < fps call_100 * n_seconds call_100 /\
  make_animation call_100
  = Failed (Rendering 0) (ValueError "slice step cannot be zero") /\
  ~ rejected_before_rendering (make_animation call_100).
Proof.
  split; [evaluate |]. split; [evaluate |].
  vm_compute. intros H. exact H.
Qed.

Lemma limits_call_100 :
  axis_limits call_100
  = Ok {| xlim_calls := [LimitPair 0%float 99%float];
          ylim_calls := [LimitPair 0%float 99%float] |}.
Proof. vm_compute. reflexivity. Defined.

Lemma too_many_frames_witness :
  rows_of_length (pos call_100) (len (t call_100)) /\
  1 <= len (t call_100) /\
  len (t call_100) < fps call_100 * n_seconds call_100 /\
  fps call_100 * n_seconds call_100 < 2 ^ 63 /\
  make_animation call_100
  = Failed (Rendering 0) (ValueError "slice step cannot be zero").
Proof.
  assert (H2 : 1 <= len (t call_100)) by evaluate.
  assert (H3 : len (t call_100) < fps call_100 * n_seconds call_100)
    by evaluate.
  assert (H4 : fps call_100 * n_seconds call_100 < 2 ^ 63) by evaluate.
  split; [exact rows_call_100 |]. split; [exact H2 |]. split; [exact H3 |].
  split; [exact H4 |].
  exact (proj2 (proj2 (too_many_frames_fail_at_first_frame
                         call_100 _ rows_call_100 H2 H3 H4 limits_call_100))).
Defined.

(** C2 as stated fails on the same scenario: the stride is 0, so it is
    neither at least 1 nor degraded to 1. *)
Lemma stride_is_zero_for_100_samples :
  len (t call_100) < fps call_100 * n_seconds call_100 /\
  compute_skip (len (t call_100)) (fps call_100) (n_seconds call_100) = Ok 0 /\
  ~ (exists s,
        compute_skip (len (t call_100)) (fps call_100) (n_seconds call_100)
        = Ok s /\ 1 <= s).
Proof.
  split; [evaluate |]. split; [evaluate |].
  intros (s & E & Hs).
  assert (E0 : compute_skip (len (t call_100)) (fps call_100)
                            (n_seconds call_100) = Ok 0) by evaluate.
  rewrite E0 in E. injection E as <-. lia.
Qed.

Lemma stride_at_least_one_witness :
  0 < fps call_6 * n_seconds call_6 /\
  exists s,
    compute_skip (len (t call_6)) (fps call_6) (n_seconds call_6) = Ok s /\
    (1 <= s <-> fps call_6 * n_seconds call_6 <= len (t call_6)) /\
    (len (t call_6) < fps call_6 * n_seconds call_6 -> s = 0).
Proof.
  assert (H : 0 < fps call_6 * n_seconds call_6) by evaluate.
  split; [exact H |].
  exact (stride_at_least_one_iff call_6 H).
Defined.

(** C3 as stated fails for 3 samples with fps = -1 and n_seconds = 2:
    3 / -2 = -1.5, which [int] truncates to -1 while its floor is -2. *)
Lemma stride_is_not_floor_for_negative_fps :
  0 < len (t call_negative_fps) /\
  compute_skip (len (t call_negative_fps)) (fps call_negative_fps)
               (n_seconds call_negative_fps) = Ok (-1) /\
  floor_quotient (len (t call_negative_fps))
                 (fps call_negative_fps * n_seconds call_negative_fps) = -2 /\
  compute_skip (len (t call_negative_fps)) (fps call_negative_fps)
               (n_seconds call_negative_fps)
  <> Ok (floor_quotient (len (t call_negative_fps))
                        (fps call_negative_fps * n_seconds call_negative_fps)).
Proof.
  split; [evaluate |]. split; [evaluate |]. split; [evaluate |].
  evaluate.
Qed.

Lemma stride_is_truncated_quotient_witness :
  0 < len (t call_6) /\
  compute_skip (len (t call_6)) (fps call_6) (n_seconds call_6)
  = Ok (floor_quotient (len (t call_6)) (fps call_6 * n_seconds call_6)).
Proof.
  assert (H : 0 < len (t call_6)) by evaluate.
  split; [exact H |].
  destruct (stride_is_truncated_quotient call_6 H) as (_ & Hfloor & _).
  apply Hfloor. evaluate.
Defined.

Lemma frame_indices_witness :
  compute_skip (len (t call_6)) (fps call_6) (n_seconds call_6) = Ok 2 /\
  map (source_index 2) (range (fps call_6 * n_seconds call_6)) = [0; 2; 4] /\
  Forall (fun i => 0 <= i < len (t call_6))
         (map (source_index 2) (range (fps call_6 * n_seconds call_6))).
Proof.
  assert (H2 : 1 <= len (t call_6)) by evaluate.
  assert (H3 : compute_skip (len (t call_6)) (fps call_6) (n_seconds call_6)
               = Ok 2) by evaluate.
  assert (H4 : 1 <= 2) by lia.
  split; [exact H3 |]. split; [reflexivity |].
  destruct (frame_indices_are_multiples_of_stride call_6 2 rows_call_6 H2 H3 H4)
    as (_ & _ & _ & Hbelow & _).
  exact Hbelow.
Defined.

Lemma frame_2_of_ramp_6 :
  animate (same_rows (ramp 6)) 2 1 2 = Ok (frame_at (same_rows (ramp 6)) 2 1 2).
Proof. reflexivity. Defined.

Lemma trace_window_slice_witness :
  1 <= 2 /\ 0 <= 2 /\
  every_stride_from (Z.max 0 (source_index 2 2 - 1 * 2)) (source_index 2 2) 2
  = [2] /\
  scatter1 (frame_at (same_rows (ramp 6)) 2 1 2)
  = map (fun j => (sample (ramp 6) j, sample (ramp 6) j))
        (every_stride_from (Z.max 0 (source_index 2 2 - 1 * 2))
                           (source_index 2 2) 2).
Proof.
  assert (H1 : 1 <= 2) by lia.
  assert (H2 : 0 <= 2) by lia.
  split; [exact H1 |]. split; [exact H2 |]. split; [reflexivity |].
  destruct (trace_window_is_strided_slice (same_rows (ramp 6)) 2 1 2 H1 H2)
    as (_ & _ & _ & _ & Hframe & _).
  exact (proj1 (Hframe _ frame_2_of_ramp_6)).
Defined.

Lemma trace_window_bound_witness :
  1 <= 2 /\ 0 <= 1 /\ 0 <= 2 /\
  len (scatter1 (frame_at (same_rows (ramp 6)) 2 1 2)) <= 1 /\
  len (scatter2 (frame_at (same_rows (ramp 6)) 2 1 2)) <= 1.
Proof.
  assert (H1 : 1 <= 2) by lia.
  assert (H2 : 0 <= 1) by lia.
  assert (H3 : 0 <= 2) by lia.
  split; [exact H1 |]. split; [exact H2 |]. split; [exact H3 |].
  destruct (trace_window_is_bounded (same_rows (ramp 6)) 2 1 2 H1 H2 H3)
    as (_ & Hframe & _).
  exact (Hframe _ frame_2_of_ramp_6).
Defined.

(** C7 as stated fails at x = 1e8, a finite float: the conversion to
    radians and back returns 99999999.99999999, about 1.5e-8 away.  It
    fails at x = 2^1023 as well, where x * pi overflows and the round
    trip returns infinity. *)
Lemma roundtrip_misses_tolerance_at_1e8 :
  is_finite 100000000%float = true /\
  (rad_to_deg (deg_to_rad 100000000) - 100000000)%float
  = (-0x1p-26)%float /\
  within_tolerance (rad_to_deg (deg_to_rad 100000000)) 100000000 = false /\
  is_finite 0x1p1023%float = true /\
  rad_to_deg (deg_to_rad 0x1p1023) = infinity /\
  within_tolerance (rad_to_deg (deg_to_rad 0x1p1023)) 0x1p1023 = false.
Proof. repeat split; reflexivity. Qed.

Lemma roundtrip_below_2p21_witness :
  (abs 90 <=? 0x1p21)%float = true /\
  roundtrip_within_tolerance 90 = true.
Proof.
  assert (H : (abs 90 <=? 0x1p21)%float = true) by reflexivity.
  split; [exact H |].
  exact (roundtrip_within_tolerance_below_2p21 90%float H).
Defined.

(** C8 at the failing input [xlim = 0.0] on x2 = y2 = [1, 2]: the limit
    is supplied but the truthiness test skips it, so the only call of
    [plt.xlim] is the one with the computed box (0.9, 2.1) and the axis
    is never asked to start at 0; with [xlim = 1.0] the same code does
    make the call. *)
Lemma zero_xlim_is_not_honoured :
  xlim call_xlim_zero = LimitNumber 0%float /\
  axis_limits call_xlim_zero
  = Ok {| xlim_calls :=
            [LimitPair 0x1.ccccccccccccdp-1%float 0x1.0cccccccccccdp+1%float];
          ylim_calls :=
            [LimitPair 0x1.ccccccccccccdp-1%float 0x1.0cccccccccccdp+1%float] |} /\
  (forall ax,
      axis_limits call_xlim_zero = Ok ax ->
      ~ limit_honoured (xlim call_xlim_zero) (xlim_calls ax)) /\
  (forall ax,
      axis_limits (with_xlim call_xlim_zero (LimitNumber 1%float)) = Ok ax ->
      limit_honoured (LimitNumber 1%float) (xlim_calls ax)).
Proof.
  split; [reflexivity |]. split; [reflexivity |]. split.
  - intros ax E. vm_compute in E. injection E as <-.
    simpl. intros [H | []]. discriminate.
  - intros ax E. vm_compute in E. injection E as <-.
    simpl. right. left. reflexivity.
Qed.

End ConcreteCalls.

(** * Further properties of the code *)

(** ** Outcomes of a run *)

Section Outcomes.

Lemma index_outside (a : list float) (i : Z) :
  len a <= i -> index a i = Raise IndexError.
Proof.
  intros H. unfold index, len in *.
  destruct (Z.ltb_spec i 0); [lia |].
  destruct (Z.ltb_spec i 0); [lia |].
  destruct (nth_error a (Z.to_nat i)) eqn:E; [| reflexivity].
  assert (nth_error a (Z.to_nat i) <> None) as Hs by congruence.
  apply nth_error_Some in Hs. lia.
Qed.

Lemma animate_outside (p : position) (skip decay k : Z) :
  len (x1 p) <= k * skip -> animate p skip decay k = Raise IndexError.
Proof.
  intros H. unfold animate, source_index.
  now rewrite index_outside.
Qed.

Lemma slice_raises (a : list float) (start stop step : Z) (e : exn) :
  slice a start stop step = Raise e ->
  step = 0 /\ e = ValueError "slice step cannot be zero".
Proof.
  unfold slice, slice_indices.
  destruct (Z.eqb_spec step 0) as [E | E]; simpl; intros H.
  - injection H as <-. auto.
  - discriminate.
Qed.

Lemma index_raises (a : list float) (i : Z) (e : exn) :
  index a i = Raise e -> e = IndexError.
Proof.
  unfold index.
  destruct (_ <? 0); [intros H; now injection H |].
  destruct (nth_error _ _); [discriminate | intros H; now injection H].
Qed.

(** The callback raises nothing but an IndexError or, for a stride of 0,
    the slice's ValueError. *)
Lemma animate_raises (p : position) (skip decay k : Z) (e : exn) :
  animate p skip decay k = Raise e ->
  (skip = 0 /\ e = ValueError "slice step cannot be zero") \/ e = IndexError.
Proof.
  unfold animate. intros H.
  destruct (index (x1 p) _) eqn:E1; simpl in H;
    [| right; injection H as <-; eapply index_raises, E1].
  destruct (index (y1 p) _) eqn:E2; simpl in H;
    [| right; injection H as <-; eapply index_raises, E2].
  destruct (index (x2 p) _) eqn:E3; simpl in H;
    [| right; injection H as <-; eapply index_raises, E3].
  destruct (index (y2 p) _) eqn:E4; simpl in H;
    [| right; injection H as <-; eapply index_raises, E4].
  destruct (slice (x1 p) _ _ _) eqn:S1; simpl in H;
    [| left; injection H as <-; eapply slice_raises, S1].
  destruct (slice (y1 p) _ _ _) eqn:S2; simpl in H;
    [| left; injection H as <-; eapply slice_raises, S2].
  destruct (slice (x2 p) _ _ _) eqn:S3; simpl in H;
    [| left; injection H as <-; eapply slice_raises, S3].
  destruct (slice (y2 p) _ _ _) eqn:S4; simpl in H;
    [| left; injection H as <-; eapply slice_raises, S4].
  discriminate.
Qed.

Lemma animate_zero_stride_never_returns (p : position) (decay k : Z) (fr : frame) :
  animate p 0 decay k <> Ok fr.
Proof.
  unfold animate, slice, slice_indices. simpl.
  destruct (index (x1 p) _); simpl; [| discriminate].
  destruct (index (y1 p) _); simpl; [| discriminate].
  destruct (index (x2 p) _); simpl; [| discriminate].
  destruct (index (y2 p) _); simpl; discriminate.
Qed.

(** A rendering that completes drew every number. *)
Lemma render_completes (p : position) (skip decay : Z)
      (numbers : list Z) (frames : list frame) :
  render p skip decay numbers = inl frames ->
  Forall2 (fun k fr => animate p skip decay k = Ok fr) numbers frames.
Proof.
  revert frames. induction numbers as [| k rest IH]; simpl; intros frames H.
  - injection H as <-. constructor.
  - destruct (animate p skip decay k) as [f |] eqn:E; [| discriminate].
    destruct (render p skip decay rest) as [fs | st]; [| discriminate].
    injection H as <-. constructor; [exact E | now apply IH].
Qed.

(** A rendering that stops does so at the first number that raises. *)
Lemma render_stops (p : position) (skip decay : Z)
      (numbers : list Z) (k : Z) (e : exn) :
  render p skip decay numbers = inr (k, e) ->
  exists before after,
    numbers = before ++ k :: after /\
    Forall (fun j => exists fr, animate p skip decay j = Ok fr) before /\
    animate p skip decay k = Raise e.
Proof.
  induction numbers as [| j rest IH]; simpl; intros H; [discriminate |].
  destruct (animate p skip decay j) as [f |] eqn:E.
  - destruct (render p skip decay rest) as [fs | st]; [discriminate |].
    injection H as ->. destruct (IH eq_refl) as (before & after & -> & Hb & Hk).
    exists (j :: before), after. repeat split; [| exact Hk].
    constructor; [eauto | exact Hb].
  - injection H as <- <-. exists [], rest. repeat split; [constructor | exact E].
Qed.

Lemma render_app (p : position) (skip decay : Z) (before rest : list Z) :
  Forall (fun k => animate p skip decay k = Ok (frame_at p skip decay k)) before ->
  render p skip decay (before ++ rest)
  = match render p skip decay rest with
    | inl fs => inl (map (frame_at p skip decay) before ++ fs)
    | inr st => inr st
    end.
Proof.
  induction 1 as [| k before Hk _ IH]; simpl.
  - now destruct (render p skip decay rest).
  - rewrite Hk, IH. now destruct (render p skip decay rest).
Qed.

Lemma of_nat_seq_shift (a b start : nat) :
  map Z.of_nat (seq (a + start) b)
  = map (fun m => Z.of_nat a + m) (map Z.of_nat (seq start b)).
Proof.
  revert start. induction b as [| b IH]; intros start; simpl; [reflexivity |].
  f_equal; [lia |].
  replace (S (a + start)) with (a + S start)%nat by lia. apply IH.
Qed.

Lemma range_split (k n : Z) :
  0 <= k <= n -> range n = range k ++ map (fun m => k + m) (range (n - k)).
Proof.
  intros H. unfold range.
  replace (Z.to_nat n) with (Z.to_nat k + Z.to_nat (n - k))%nat by lia.
  rewrite seq_app, map_app. f_equal.
  replace (0 + Z.to_nat k)%nat with (Z.to_nat k + 0)%nat by lia.
  rewrite of_nat_seq_shift.
  replace (Z.of_nat (Z.to_nat k)) with k by lia. reflexivity.
Qed.

End Outcomes.

Section RunOutcomes.

Lemma range_prefix (n k : Z) (before after : list Z) :
  range n = before ++ k :: after ->
  0 <= k < n /\ before = range k.
Proof.
  intros H.
  assert (Hlen : (length before < Z.to_nat n)%nat).
  { apply (f_equal (@length Z)) in H.
    unfold range in H. rewrite length_map, length_seq, length_app in H.
    simpl in H. lia. }
  assert (Hk : k = Z.of_nat (length before)).
  { assert (E : nth_error (range n) (length before) = Some k).
    { rewrite H, nth_error_app2 by lia. now rewrite Nat.sub_diag. }
    assert (E' : nth_error (range n) (Z.to_nat (Z.of_nat (length before)))
                 = Some (Z.of_nat (length before)))
      by (apply range_nth; lia).
    rewrite Nat2Z.id in E'. congruence. }
  split; [lia |].
  assert (Hsplit := range_split k n ltac:(lia)).
  rewrite H in Hsplit.
  apply (f_equal (firstn (length before))) in Hsplit.
  rewrite firstn_app, firstn_all, Nat.sub_diag in Hsplit. simpl in Hsplit.
  rewrite app_nil_r in Hsplit. rewrite Hsplit.
  assert (El : length before = length (range k))
    by (unfold range; rewrite length_map, length_seq; lia).
  rewrite El, firstn_app, firstn_all, Nat.sub_diag. simpl.
  now rewrite app_nil_r.
Qed.

Lemma nonneg_stride (N fps n_seconds s : Z) :
  0 <= N -> 0 < fps * n_seconds ->
  compute_skip N fps n_seconds = Ok s -> s = N / (fps * n_seconds) /\ 0 <= s.
Proof.
  intros HN Hpos E. rewrite compute_skip_quot in E by lia.
  injection E as <-.
  rewrite Z.quot_div_nonneg by lia. split; [reflexivity |].
  apply Z.div_pos; lia.
Qed.

(** X2: whenever [make_animation] saves, it writes to [save_path] exactly
    max(0, fps * n_seconds) frames under the limits of the set-up; and if
    any frame was requested, the stride is at least 1, the frame count
    does not exceed the number of time stamps, and frame k is the one
    built from the samples of index k * stride. *)
Theorem saved_run_has_requested_frames
        (a : arguments) (path : string) (ax : axes) (circle : option float)
        (frames : list frame) :
  make_animation a = Saved path ax circle frames ->
  path = save_path a /\
  axis_limits a = Ok ax /\
  len frames = Z.max 0 (fps a * n_seconds a) /\
  (0 < fps a * n_seconds a ->
   exists s,
     compute_skip (len (t a)) (fps a) (n_seconds a) = Ok s /\
     1 <= s /\
     fps a * n_seconds a <= len (t a) /\
     frames = map (frame_at (pos a) s (decay_time a))
                  (range (fps a * n_seconds a))).
Proof.
  unfold make_animation. intros H.
  destruct (axis_limits a) as [ax' |] eqn:Eax; [| discriminate].
  destruct (compute_skip _ _ _) as [s |] eqn:Es; [| discriminate].
  destruct (frame_numbers _) as [numbers |] eqn:En; [| discriminate].
  apply frame_numbers_inversion in En. destruct En as [_ ->].
  destruct (render _ _ _ _) as [frames' | [k e]] eqn:Er; [| discriminate].
  injection H as <- <- _ <-.
  apply render_completes in Er.
  split; [reflexivity |]. split; [reflexivity |]. split.
  - unfold len. rewrite <- (Forall2_length Er).
    fold (len (range (fps a * n_seconds a))). apply len_range.
  - intros Hpos. exists s.
    assert (HN : 0 <= len (t a)) by (unfold len; lia).
    destruct (nonneg_stride _ _ _ _ HN Hpos Es) as [Eq Hs0].
    assert (Hs : 1 <= s).
    { destruct (Z.eq_dec s 0) as [-> | Hne]; [| lia].
      exfalso.
      destruct (range_starts_at_zero _ Hpos) as [rest Erange].
      rewrite Erange in Er. inversion Er as [| ? fr ? ? H0 ?]; subst.
      now apply animate_zero_stride_never_returns in H0. }
    split; [reflexivity |]. split; [exact Hs |]. split.
    + destruct (Z_lt_le_dec (len (t a)) (fps a * n_seconds a)) as [Hlt | Hle];
        [| exact Hle].
      rewrite Z.div_small in Eq by lia. lia.
    + assert (Hin : Forall (fun k => 0 <= k) (range (fps a * n_seconds a))).
      { apply Forall_forall. intros k Hk. apply In_range in Hk. lia. }
      clear - Er Hs Hin.
      induction Er as [| k fr numbers frs Hk _ IH]; simpl; [reflexivity |].
      inversion Hin; subst. f_equal; [| now apply IH].
      now apply animate_inversion.
Qed.

(** X3: when [make_animation] fails while rendering, it is at the first
    frame number k whose callback raises: every frame before k was
    drawn, and the exception is an IndexError or, only when the stride is
    0, the slice's ValueError. *)
Theorem rendering_failure_is_first_bad_frame
        (a : arguments) (k : Z) (e : exn) :
  make_animation a = Failed (Rendering k) e ->
  exists s,
    compute_skip (len (t a)) (fps a) (n_seconds a) = Ok s /\
    0 <= k < fps a * n_seconds a /\
    animate (pos a) s (decay_time a) k = Raise e /\
    (forall j, 0 <= j < k ->
               exists fr, animate (pos a) s (decay_time a) j = Ok fr) /\
    (e = IndexError \/
     (s = 0 /\ e = ValueError "slice step cannot be zero")).
Proof.
  unfold make_animation. intros H.
  destruct (axis_limits a) as [ax' |] eqn:Eax; [| discriminate].
  destruct (compute_skip _ _ _) as [s |] eqn:Es; [| discriminate].
  destruct (frame_numbers _) as [numbers |] eqn:En; [| discriminate].
  apply frame_numbers_inversion in En. destruct En as [_ ->].
  destruct (render _ _ _ _) as [frames' | [k' e']] eqn:Er; [discriminate |].
  injection H as -> ->.
  apply render_stops in Er.
  destruct Er as (before & after & Erange & Hbefore & Hk).
  apply range_prefix in Erange. destruct Erange as [Hrange ->].
  exists s. split; [reflexivity |]. split; [exact Hrange |].
  split; [exact Hk |]. split.
  - intros j Hj. rewrite Forall_forall in Hbefore.
    apply Hbefore, In_range, Hj.
  - destruct (animate_raises _ _ _ _ _ Hk) as [Hz | ->]; auto.
Qed.

End RunOutcomes.

Section RowsAndTraces.

(** X4: with a stride s >= 1 and position rows of M >= 1 columns (whatever
    the number of time stamps), once matplotlib has accepted the axis
    limits and for a frame count below 2^63, the run saves its frames
    when the last source index (n_frames - 1) * s lies inside the rows;
    otherwise it raises IndexError at the first frame whose index reaches
    M, after the frames before it were drawn. *)
Theorem short_rows_raise_IndexError (a : arguments) (ax : axes) (M s : Z) :
  rows_of_length (pos a) M -> 1 <= M ->
  compute_skip (len (t a)) (fps a) (n_seconds a) = Ok s -> 1 <= s ->
  axis_limits a = Ok ax ->
  fps a * n_seconds a < 2 ^ 63 ->
  let n_frames := fps a * n_seconds a in
  ((n_frames - 1) * s < M ->
   exists circle,
     make_animation a
     = Saved (save_path a) ax circle
             (map (frame_at (pos a) s (decay_time a)) (range n_frames))) /\
  (M <= (n_frames - 1) * s ->
   make_animation a
   = Failed (Rendering (first_frame_outside M s)) IndexError).
Proof.
  intros Hrows HM Eskip Hs Eax Hbound n_frames.
  assert (HN : 0 <= len (t a)) by (unfold len; lia).
  destruct (positive_stride _ _ _ _ HN Eskip Hs) as [Hpos _].
  fold n_frames in Hpos, Hbound.
  unfold make_animation. rewrite Eax, Eskip. fold n_frames.
  rewrite frame_numbers_range by lia. split.
  - intros Hlast.
    rewrite (render_frames _ _ _ M); [eauto | assumption | lia |].
    apply Forall_forall. intros k Hk. apply In_range in Hk. nia.
  - intros Hshort. unfold first_frame_outside.
    set (k0 := (M + s - 1) / s).
    assert (Hlow : s * k0 <= M + s - 1) by (apply Z.mul_div_le; lia).
    assert (Hup : M + s - 1 < s * (k0 + 1)).
    { pose proof (Z.div_mod (M + s - 1) s ltac:(lia)) as E.
      pose proof (Z.mod_pos_bound (M + s - 1) s ltac:(lia)) as B.
      fold k0 in E. lia. }
    assert (Hk0 : 1 <= k0 < n_frames) by nia.
    rewrite (range_split k0 n_frames) by lia.
    rewrite render_app.
    + destruct (range_starts_at_zero (n_frames - k0)) as [rest ->]; [lia |].
      simpl. rewrite Z.add_0_r.
      rewrite animate_outside; [reflexivity |].
      destruct Hrows as (-> & _). nia.
    + apply Forall_forall. intros k Hk. apply In_range in Hk.
      apply (animate_frame_at _ _ _ _ M); try assumption; nia.
Qed.

Lemma trace_start_as_frame (skip decay k : Z) :
  1 <= skip -> 0 <= decay -> 0 <= k ->
  Z.max 0 (k * skip - decay * skip) = Z.max 0 (k - decay) * skip.
Proof. intros. nia. Qed.

Lemma In_previous_frames (decay k m : Z) :
  0 <= decay -> 0 <= k ->
  In m (previous_frames decay k) <-> Z.max 0 (k - decay) <= m < k.
Proof.
  intros Hd Hk. unfold previous_frames. rewrite in_map_iff. split.
  - intros (j & <- & Hj). apply In_range in Hj. lia.
  - intros H. exists (m - Z.max 0 (k - decay)).
    split; [lia | apply In_range; lia].
Qed.

(** The window of frame [k] is made of the source indices of the frames
    before it. *)
Lemma window_is_previous_frames (skip decay k : Z) :
  1 <= skip -> 0 <= decay -> 0 <= k ->
  every_stride_from (Z.max 0 (k * skip - decay * skip)) (k * skip) skip
  = map (source_index skip) (previous_frames decay k).
Proof.
  intros Hs Hd Hk.
  rewrite trace_start_as_frame by assumption.
  set (first := Z.max 0 (k - decay)).
  apply sorted_same_elements.
  - apply sorted_filter, range_sorted.
  - apply sorted_map_increasing; [intros; unfold source_index; nia |].
    unfold previous_frames. fold first.
    apply sorted_map_increasing; [intros; lia | apply range_sorted].
  - intros j. rewrite In_every_stride_from, in_map_iff. split.
    + intros (Hj & Hfirst & Hmod).
      apply Z.div_exact in Hmod; [| lia].
      set (q := (j - first * skip) / skip) in *.
      exists (first + q). unfold source_index.
      split; [lia |]. apply In_previous_frames; try assumption.
      fold first. nia.
    + intros (m & <- & Hm).
      apply In_previous_frames in Hm; try assumption. fold first in Hm.
      unfold source_index. split; [nia |]. split; [nia |].
      replace (m * skip - first * skip) with ((m - first) * skip) by lia.
      apply Z.mod_mul. lia.
Qed.

(** X5: the trace drawn with frame k holds, oldest first, the positions
    the point had at the min(k, decay_time) frames before it (the samples
    at their source indices); the position of frame k itself is not part
    of its trace, frame 0 has an empty one, and so has every frame when
    decay_time is 0. *)
Theorem trace_holds_previous_frames
        (p : position) (skip decay k : Z) (fr : frame) :
  1 <= skip -> 0 <= decay -> 0 <= k ->
  animate p skip decay k = Ok fr ->
  scatter1 fr
  = map (fun j => (sample (x1 p) (source_index skip j),
                   sample (y1 p) (source_index skip j)))
        (previous_frames decay k) /\
  scatter2 fr
  = map (fun j => (sample (x2 p) (source_index skip j),
                   sample (y2 p) (source_index skip j)))
        (previous_frames decay k) /\
  len (scatter1 fr) = Z.min k decay /\
  len (scatter2 fr) = Z.min k decay /\
  (forall j, In j (previous_frames decay k) <-> Z.max 0 (k - decay) <= j < k).
Proof.
  intros Hs Hd Hk H.
  apply animate_inversion in H; [| assumption ..]. subst fr.
  unfold frame_at. simpl.
  rewrite window_is_previous_frames by assumption.
  rewrite !map_map, !len_map.
  assert (Hlen : len (previous_frames decay k) = Z.min k decay).
  { unfold previous_frames. rewrite len_map, len_range. lia. }
  split; [reflexivity |]. split; [reflexivity |].
  split; [exact Hlen |]. split; [exact Hlen |].
  intros j. now apply In_previous_frames.
Qed.

(** X6: with a stride s >= 1, no frame reads a sample beyond the source
    index of the last frame, (n_frames - 1) * s, which lies below the
    number N of time stamps; between s - 1 and s + n_frames - 2 samples
    at the end of the series are therefore never drawn. *)
Theorem samples_after_last_frame (a : arguments) (s : Z) :
  compute_skip (len (t a)) (fps a) (n_seconds a) = Ok s -> 1 <= s ->
  let n_frames := fps a * n_seconds a in
  let last := source_index s (n_frames - 1) in
  (forall k, 0 <= k < n_frames ->
     source_index s k <= last /\
     Forall (fun j => j < last)
            (every_stride_from (trace_start s (decay_time a) (source_index s k))
                               (source_index s k) s)) /\
  last < len (t a) /\
  s - 1 <= len (t a) - 1 - last <= s + n_frames - 2.
Proof.
  intros Eskip Hs n_frames last.
  assert (HN : 0 <= len (t a)) by (unfold len; lia).
  destruct (positive_stride _ _ _ _ HN Eskip Hs) as [Hpos Es].
  fold n_frames in Hpos, Es.
  assert (Hlow : n_frames * s <= len (t a))
    by (rewrite Es; apply Z.mul_div_le; lia).
  assert (Hup : len (t a) < n_frames * (s + 1)).
  { pose proof (Z.div_mod (len (t a)) n_frames ltac:(lia)) as E.
    pose proof (Z.mod_pos_bound (len (t a)) n_frames Hpos) as B.
    rewrite <- Es in E. lia. }
  unfold last, source_index. split; [| split; [nia | nia]].
  intros k Hk. split; [nia |].
  apply Forall_forall. intros j Hj.
  apply In_every_stride_from in Hj. nia.
Qed.

(** X7: the time stamps themselves are never read, only their number:
    two calls that differ in [t] alone, with as many time stamps, give
    the same animation. *)
Theorem time_values_are_ignored (a : arguments) (t' : list float) :
  len t' = len (t a) -> make_animation (with_t a t') = make_animation a.
Proof.
  intros H. unfold make_animation, axis_limits. simpl.
  now rewrite H.
Qed.

(** X8: a zero (of either sign) given as [xlim], [ylim] or
    [circle_radius] is treated as if the argument had been left out. *)
Theorem zero_arguments_are_ignored (a : arguments) :
  make_animation (with_xlim a (LimitNumber 0%float))
  = make_animation (with_xlim a NoLimit) /\
  make_animation (with_xlim a (LimitNumber (-0)%float))
  = make_animation (with_xlim a NoLimit) /\
  make_animation (with_ylim a (LimitNumber 0%float))
  = make_animation (with_ylim a NoLimit) /\
  make_animation (with_ylim a (LimitNumber (-0)%float))
  = make_animation (with_ylim a NoLimit) /\
  make_animation (with_circle_radius a (Some 0%float))
  = make_animation (with_circle_radius a None) /\
  make_animation (with_circle_radius a (Some (-0)%float))
  = make_animation (with_circle_radius a None).
Proof. repeat split; reflexivity. Qed.

End RowsAndTraces.

(** ** Sign symmetry of the angle conversions *)

Section AngleSymmetry.

Lemma binary_round_aux_opp (prec emax : Z) (sx : bool) (mx ex : Z)
      (lx : SpecFloat.location) :
  SpecFloat.binary_round_aux prec emax (negb sx) mx ex lx
  = SpecFloat.SFopp (SpecFloat.binary_round_aux prec emax sx mx ex lx).
Proof.
  unfold SpecFloat.binary_round_aux.
  destruct (SpecFloat.shr_fexp prec emax mx ex lx) as [mrs e'].
  destruct (SpecFloat.shr_fexp prec emax _ e' SpecFloat.loc_Exact) as [mrs' e''].
  destruct (SpecFloat.shr_m mrs'); simpl; try reflexivity.
  destruct (Z.leb e'' (Z.sub emax prec)); reflexivity.
Qed.

Lemma SFmul_opp_l (prec emax : Z) (x y : SpecFloat.spec_float) :
  SpecFloat.SFmul prec emax (SpecFloat.SFopp x) y
  = SpecFloat.SFopp (SpecFloat.SFmul prec emax x y).
Proof.
  destruct x as [sx | sx | | sx mx ex], y as [sy | sy | | sy my ey]; simpl;
    try reflexivity; rewrite <- ?negb_xorb_l; try reflexivity.
  apply binary_round_aux_opp.
Qed.

Lemma SFdiv_opp_l (prec emax : Z) (x y : SpecFloat.spec_float) :
  SpecFloat.SFdiv prec emax (SpecFloat.SFopp x) y
  = SpecFloat.SFopp (SpecFloat.SFdiv prec emax x y).
Proof.
  destruct x as [sx | sx | | sx mx ex], y as [sy | sy | | sy my ey]; simpl;
    try reflexivity; rewrite <- ?negb_xorb_l; try reflexivity.
  destruct (SpecFloat.SFdiv_core_binary prec emax (Zpos mx) ex (Zpos my) ey)
    as [[mz ez] lz].
  apply binary_round_aux_opp.
Qed.

Lemma mul_opp_l (x y : float) : (- x * y = - (x * y))%float.
Proof.
  apply FloatAxioms.Prim2SF_inj.
  rewrite FloatAxioms.opp_spec, !FloatAxioms.mul_spec, FloatAxioms.opp_spec.
  apply SFmul_opp_l.
Qed.

Lemma div_opp_l (x y : float) : (- x / y = - (x / y))%float.
Proof.
  apply FloatAxioms.Prim2SF_inj.
  rewrite FloatAxioms.opp_spec, !FloatAxioms.div_spec, FloatAxioms.opp_spec.
  apply SFdiv_opp_l.
Qed.

(** X9: both conversions are odd functions on all floats: converting -x
    gives exactly the negated conversion of x (infinities and signed
    zeros included, NaN going to NaN). *)
Theorem conversions_are_odd (x : float) :
  rad_to_deg (- x) = (- rad_to_deg x)%float /\
  deg_to_rad (- x) = (- deg_to_rad x)%float.
Proof.
  unfold rad_to_deg, deg_to_rad.
  now rewrite !mul_opp_l, !div_opp_l.
Qed.

End AngleSymmetry.

(** ** The further properties on concrete calls *)

Section FurtherConcreteCalls.

Lemma call_6_outcome :
  make_animation call_6
  = Saved "pendulum.gif"
          {| xlim_calls := [LimitPair 0%float 5%float];
             ylim_calls := [LimitPair 0%float 5%float] |}
          None
          (map (frame_at (pos call_6) 2 1) (range 3)).
Proof. reflexivity. Defined.

Lemma call_100_outcome :
  make_animation call_100
  = Failed (Rendering 0) (ValueError "slice step cannot be zero").
Proof. vm_compute. reflexivity. Defined.

Lemma saved_run_witness :
  len (map (frame_at (pos call_6) 2 1) (range 3))
  = Z.max 0 (fps call_6 * n_seconds call_6).
Proof.
  destruct (saved_run_has_requested_frames call_6 _ _ _ _ call_6_outcome)
    as (_ & _ & Hlen & _).
  exact Hlen.
Defined.

Lemma rendering_failure_witness :
  exists s,
    compute_skip (len (t call_100)) (fps call_100) (n_seconds call_100) = Ok s /\
    0 <= 0 < fps call_100 * n_seconds call_100 /\
    animate (pos call_100) s (decay_time call_100) 0
    = Raise (ValueError "slice step cannot be zero") /\
    (forall j, 0 <= j < 0 ->
               exists fr, animate (pos call_100) s (decay_time call_100) j = Ok fr) /\
    (ValueError "slice step cannot be zero" = IndexError \/
     (s = 0 /\
      ValueError "slice step cannot be zero"
      = ValueError "slice step cannot be zero")).
Proof.
  exact (rendering_failure_is_first_bad_frame call_100 0 _ call_100_outcome).
Defined.

Lemma rows_call_short : rows_of_length (pos call_short_rows) 3.
Proof. repeat split; reflexivity. Defined.

Lemma limits_call_short :
  axis_limits call_short_rows
  = Ok {| xlim_calls := [LimitPair 0%float 2%float];
          ylim_calls := [LimitPair 0%float 2%float] |}.
Proof. reflexivity. Defined.

Lemma short_rows_witness :
  3 <= (fps call_short_rows * n_seconds call_short_rows - 1) * 2 /\
  first_frame_outside 3 2 = 2 /\
  make_animation call_short_rows
  = Failed (Rendering (first_frame_outside 3 2)) IndexError.
Proof.
  assert (H1 : 1 <= 3) by lia.
  assert (H2 : compute_skip (len (t call_short_rows)) (fps call_short_rows)
                            (n_seconds call_short_rows) = Ok 2) by evaluate.
  assert (H3 : 1 <= 2) by lia.
  assert (H4 : 3 <= (fps call_short_rows * n_seconds call_short_rows - 1) * 2)
    by evaluate.
  assert (H5 : fps call_short_rows * n_seconds call_short_rows < 2 ^ 63)
    by evaluate.
  split; [exact H4 |]. split; [reflexivity |].
  exact (proj2 (short_rows_raise_IndexError call_short_rows _ 3 2
                  rows_call_short H1 H2 H3 limits_call_short H5) H4).
Defined.

Lemma previous_frames_witness :
  previous_frames 1 2 = [1] /\
  len (scatter1 (frame_at (same_rows (ramp 6)) 2 1 2)) = Z.min 2 1.
Proof.
  assert (H1 : 1 <= 2) by lia.
  assert (H2 : 0 <= 1) by lia.
  assert (H3 : 0 <= 2) by lia.
  split; [reflexivity |].
  destruct (trace_holds_previous_frames (same_rows (ramp 6)) 2 1 2 _
              H1 H2 H3 frame_2_of_ramp_6)
    as (_ & _ & Hlen & _).
  exact Hlen.
Defined.

Lemma samples_after_last_frame_witness :
  source_index 2 (fps call_6 * n_seconds call_6 - 1) < len (t call_6) /\
  2 - 1
  <= len (t call_6) - 1 - source_index 2 (fps call_6 * n_seconds call_6 - 1)
  <= 2 + fps call_6 * n_seconds call_6 - 2.
Proof.
  assert (H1 : compute_skip (len (t call_6)) (fps call_6) (n_seconds call_6)
               = Ok 2) by evaluate.
  assert (H2 : 1 <= 2) by lia.
  exact (proj2 (samples_after_last_frame call_6 2 H1 H2)).
Defined.

Lemma time_values_witness :
  len uneven_times = len (t call_6) /\
  make_animation (with_t call_6 uneven_times) = make_animation call_6.
Proof.
  assert (H : len uneven_times = len (t call_6)) by reflexivity.
  split; [exact H |].
  exact (time_values_are_ignored call_6 uneven_times H).
Defined.

End FurtherConcreteCalls.

(** ** The trail from one frame to the next *)

Section SlidingTrail.

Lemma range_succ_last (n : Z) : 0 <= n -> range (n + 1) = range n ++ [n].
Proof.
  intros H. rewrite (range_split n (n + 1)) by lia.
  replace (n + 1 - n) with 1 by lia. simpl. now rewrite Z.add_0_r.
Qed.

Lemma range_succ_first (n : Z) :
  0 <= n -> range (n + 1) = 0 :: map (fun m => 1 + m) (range n).
Proof.
  intros H. rewrite (range_split 1 (n + 1)) by lia.
  replace (n + 1 - 1) with n by lia. reflexivity.
Qed.

Lemma previous_frames_succ (decay k : Z) :
  1 <= decay -> 0 <= k ->
  previous_frames decay (k + 1)
  = skipn (if decay <=? k then 1 else 0) (previous_frames decay k) ++ [k].
Proof.
  intros Hd Hk. unfold previous_frames.
  destruct (Z.leb_spec decay k) as [Hfull | Hgrow].
  - replace (Z.max 0 (k + 1 - decay)) with (k - decay + 1) by lia.
    replace (Z.max 0 (k - decay)) with (k - decay) by lia.
    replace (k + 1 - (k - decay + 1)) with (decay - 1 + 1) by lia.
    replace (k - (k - decay)) with (decay - 1 + 1) by lia.
    rewrite (range_succ_last (decay - 1)) at 1 by lia.
    rewrite (range_succ_first (decay - 1)) by lia.
    rewrite map_app. cbn [skipn map app]. rewrite map_map. f_equal.
    + apply map_ext. intros m. lia.
    + f_equal. lia.
  - replace (Z.max 0 (k + 1 - decay)) with 0 by lia.
    replace (Z.max 0 (k - decay)) with 0 by lia.
    rewrite !Z.sub_0_r, range_succ_last, map_app by lia. reflexivity.
Qed.

(** X10: the trail slides from one frame to the next: with decay_time >=
    1, the trace of frame k + 1 is the trace of frame k, without its
    oldest point once it holds decay_time points, followed by the tip the
    rod had in frame k. *)
Theorem trail_slides_by_one_frame
        (p : position) (skip decay k : Z) (fr fr' : frame) :
  1 <= skip -> 1 <= decay -> 0 <= k ->
  animate p skip decay k = Ok fr ->
  animate p skip decay (k + 1) = Ok fr' ->
  let dropped := if decay <=? k then 1%nat else 0%nat in
  scatter1 fr'
  = skipn dropped (scatter1 fr)
    ++ [(nth 1 (fst (line1 fr)) 0%float, nth 1 (snd (line1 fr)) 0%float)] /\
  scatter2 fr'
  = skipn dropped (scatter2 fr)
    ++ [(nth 1 (fst (line2 fr)) 0%float, nth 1 (snd (line2 fr)) 0%float)].
Proof.
  intros Hs Hd Hk H H' dropped.
  destruct (trace_holds_previous_frames p skip decay k fr)
    as (E1 & E2 & _); try assumption; try lia.
  destruct (trace_holds_previous_frames p skip decay (k + 1) fr')
    as (E1' & E2' & _); try assumption; try lia.
  apply animate_inversion in H; [| assumption ..].
  rewrite E1', E2', E1, E2, previous_frames_succ by assumption.
  rewrite !map_app, <- !skipn_map. subst fr. simpl.
  unfold source_index, dropped.
  destruct (decay <=? k); split; reflexivity.
Qed.

End SlidingTrail.

Section SlidingTrailCall.

Lemma frame_1_of_ramp_6 :
  animate (same_rows (ramp 6)) 2 1 1 = Ok (frame_at (same_rows (ramp 6)) 2 1 1).
Proof. reflexivity. Defined.

Lemma trail_slides_witness :
  scatter1 (frame_at (same_rows (ramp 6)) 2 1 2)
  = skipn 1 (scatter1 (frame_at (same_rows (ramp 6)) 2 1 1))
    ++ [(nth 1 (fst (line1 (frame_at (same_rows (ramp 6)) 2 1 1))) 0%float,
         nth 1 (snd (line1 (frame_at (same_rows (ramp 6)) 2 1 1))) 0%float)].
Proof.
  assert (H1 : 1 <= 2) by lia.
  assert (H2 : 1 <= 1) by lia.
  assert (H3 : 0 <= 1) by lia.
  exact (proj1 (trail_slides_by_one_frame (same_rows (ramp 6)) 2 1 1 _ _
                  H1 H2 H3 frame_1_of_ramp_6 frame_2_of_ramp_6)).
Defined.

End SlidingTrailCall.
